(** * somesonic: the playback queue and transport of [AudioPlayer]

    A shallow embedding of the [AudioPlayer] class (player.js): the queue
    with its canonical and shuffled orderings, the transport operations,
    the listeners installed on the audio element, and the continuations
    of the two asynchronous methods.

    Conventions.
    - JavaScript numbers that hold indices are [Z] ([currentIndex] is [-1]
      when no track is selected); numbers that hold times and volumes are
      rationals [Q] (every finite double is one).
    - Arrays are lists, read with [!!] and written with [<[i:=x]>].
    - [Math.random()] is an explicit source of doubles in [0,1), and the
      product [Math.random() * (i + 1)] is rounded to a double as in the
      code.
    - The audio element is the record [Audio] of the properties the player
      reads and writes; what the player asks of it and what it delivers to
      the host's callback slots is appended to a log.
    - An [async] method runs up to its first [await] and leaves a
      [Pending] continuation, resumed later with the promise's outcome. *)

From Stdlib Require Import ZArith QArith Qround Qminmax Lia Lqa.
From Stdlib Require Import Ascii String Decimal DecimalString DecimalZ DecimalPos.
From stdpp Require Import base list strings.

Local Open Scope Z_scope.

(** ** Tracks *)

Record Track := mkTrack {
  id : string;
  title : string;
  streamUrl : option string
}.

(** [t.id === current.id] *)
Definition same_id (current t : Track) : bool :=
  String.eqb (id t) (id current).

(** Truthiness of [track.streamUrl]: [undefined] and the empty string are
    falsy. *)
Definition truthy_url (u : option string) : option string :=
  match u with
  | Some s => if String.eqb s "" then None else Some s
  | None => None
  end.

(** ** The random source *)

(** One result of [Math.random()]: a double [r] with [0 <= r < 1]. The
    doubles of that range are the numbers [draw_mantissa / 2 ^ draw_scale]
    below 1 with a mantissa below [2^53] and a scale of at most 1074
    (the least exponent of a double). *)
Record Draw := mkDraw {
  draw_mantissa : Z;
  draw_scale : nat;
  draw_range :
    (0 <=? draw_mantissa) && (draw_mantissa <? 2 ^ 53) &&
    (draw_mantissa <? 2 ^ Z.of_nat draw_scale) &&
    Nat.leb draw_scale 1074 = true
}.

(** The number a draw stands for. *)
Definition draw_val (r : Draw) : Q :=
  draw_mantissa r # Z.to_pos (2 ^ Z.of_nat (draw_scale r)).

(** [P / 2^s] rounded to the nearest integer, a tie going to the even
    one. *)
Definition round_half_even (P s : Z) : Z :=
  let q := P / 2 ^ s in
  let rem := P mod 2 ^ s in
  let half := 2 ^ (s - 1) in
  if rem <? half then q
  else if half <? rem then q + 1
  else if Z.even q then q else q + 1.

(** The integer nearest to [P >= 0] that has at most 53 significant
    bits, a tie going to the even mantissa: for a scale [k] of a draw,
    [round_double P / 2^k] is the double nearest to [P / 2^k] (the
    products below stay far from the ends of the exponent range). *)
Definition round_double (P : Z) : Z :=
  if P <? 2 ^ 53 then P
  else
    let s := Z.log2 P - 52 in
    round_half_even P s * 2 ^ s.

(** Half the distance from 1 to the next double: a product is moved by
    at most this part of itself when it is rounded. *)
Definition unit_roundoff : Q := 1 # 9007199254740992.

(** The draws of one run of [_shuffleArray]: [rnd k] is the result of the
    [k]-th call of [Math.random()] in that run, counted from 0. *)
Definition RandomSource := nat -> Draw.

(** [Math.floor(Math.random() * (i + 1))]: the product of the draw and
    [i + 1] (an index of an array plus one, itself a double) is rounded
    to a double, then floored. *)
Definition random_index (r : Draw) (i : nat) : nat :=
  Z.to_nat (round_double (draw_mantissa r * (Z.of_nat i + 1))
            / 2 ^ Z.of_nat (draw_scale r)).

(** ** Arrays *)

Section Arrays.
Context {A : Type}.

(** [[a[i], a[j]] = [a[j], a[i]]]: the right-hand side is read first, then
    [a[i]] and [a[j]] are written in that order. Both indices are inside
    the array wherever the player swaps (lemmas [random_index_le] and
    [findIndex_lookup]); outside it the array is returned as it is. *)
Definition swap (a : list A) (i j : nat) : list A :=
  match a !! j, a !! i with
  | Some aj, Some ai => <[j := ai]> (<[i := aj]> a)
  | _, _ => a
  end.

(** [a.findIndex(p)], scanning from index [k]: the first index whose
    element satisfies [p], or [-1]. *)
Fixpoint findIndex_from (p : A -> bool) (k : Z) (a : list A) : Z :=
  match a with
  | [] => -1
  | x :: a' => if p x then k else findIndex_from p (k + 1) a'
  end.

Definition findIndex (p : A -> bool) (a : list A) : Z :=
  findIndex_from p 0 a.

(** The loop of [_shuffleArray]:
    [for (let i = array.length - 1; i > 0; i--)], at loop variable [i],
    having called [Math.random()] [k] times so far. *)
Fixpoint shuffle_loop (rnd : RandomSource) (k i : nat) (array : list A)
  : list A :=
  match i with
  | O => array
  | S i' =>
      let j := random_index (rnd k) i in
      shuffle_loop rnd (S k) i' (swap array i j)
  end.

Definition _shuffleArray (rnd : RandomSource) (array : list A) : list A :=
  shuffle_loop rnd 0 (length array - 1)%nat array.

(** The index the source picks at loop variable [i] when it shuffles
    [n] elements: it is the draw number [n - 1 - i]. *)
Definition drawn (rnd : RandomSource) (n i : nat) : nat :=
  random_index (rnd (n - 1 - i)%nat) i.

(** Fisher-Yates as the specification words it: for [i] from the last
    index down to 1, swap element [i] with the element at a chosen index
    [choice i] of [0..i]. *)
Definition fisher_yates (choice : nat -> nat) (l : list A) : list A :=
  fold_left (fun a i => swap a i (choice i))
            (rev (seq 1 (length l - 1)%nat)) l.
End Arrays.

(** ** The audio element and what the player observes of it *)

Definition ErrorDetail := string.

(** State of the Web Audio context created for the visualisation. *)
Inductive ContextState := Running | Suspended | Closed.

(** How the [try] block of [initAudioContext] ends: the constructor of
    the context throws; or the context is created in state [st] and every
    later step succeeds; or the context is created and assigned and a
    later step (creating or connecting the nodes) throws. *)
Inductive ContextCreation :=
| ConstructorThrows
| Connected (st : ContextState)
| ConnectionThrows (st : ContextState).

(** The properties of the audio element the player reads or writes.
    [duration] is [None] while it is [NaN]. *)
Record Audio := mkAudio {
  src : string;
  currentTime : Q;
  duration : option Q;
  audio_volume : Q;
  muted : bool
}.

(** The events of the audio element the player listens to. *)
Inductive AudioEvent :=
| EvPlay | EvPause | EvTimeupdate | EvEnded
| EvError (e : ErrorDetail) | EvLoadedmetadata.

(** How a promise settles. *)
Inductive Outcome := Fulfilled | Rejected (e : ErrorDetail).

(** What the player passes to the host's callback slots. *)
Inductive Notification :=
| TrackChange (t : Track)
| PlayStateChange (playing : bool)
| TimeUpdate (time dur : Q)
| Ended
| Error (e : ErrorDetail).

(** A callback assigned to a slot, named by the host. *)
Definition Handler := nat.

(** Everything the player does to the outside, in order. *)
Inductive Event :=
| AudioSrc (url : string)          (* audio.src = url *)
| AudioPlay                        (* audio.play() *)
| AudioPause                       (* audio.pause() *)
| AudioCurrentTime (t : Q)         (* audio.currentTime = t *)
| AudioVolume (v : Q)              (* audio.volume = v *)
| AudioMuted (m : bool)            (* audio.muted = m *)
| ContextResume                    (* audioContext.resume() *)
| ConsoleError (e : ErrorDetail)   (* console.error(..., e) *)
| Callback (h : Handler) (n : Notification).

(** The places where an [async] method is suspended. *)
Inductive Pending :=
| PlayIndex_resume (track : Track)  (* playIndex, at [await this.audioContext.resume()] *)
| PlayIndex_play (track : Track)    (* playIndex, at [await this.audio.play()] *)
| Play_resume                       (* play, at [await this.audioContext.resume()] *)
| Play_play.                        (* play, at [await this.audio.play()] *)

(** The five callback slots; [None] is [null]. *)
Record Slots := mkSlots {
  onTrackChange : option Handler;
  onPlayStateChange : option Handler;
  onTimeUpdate : option Handler;
  onEnded : option Handler;
  onError : option Handler
}.

(** ** The player *)

(** The fields of [AudioPlayer]; [pending] and [log] belong to the model:
    the suspended calls of [playIndex] and [play], and the trace of
    effects. The analyser and source nodes are handles the player never
    reads and are left out. *)
Record AudioPlayer := mkPlayer {
  audio : Audio;
  queue : list Track;
  currentIndex : Z;
  isPlaying : bool;
  volume : Q;
  repeat : string;
  shuffle : bool;
  shuffledQueue : list Track;
  audioContext : option ContextState;
  slots : Slots;
  pending : list Pending;
  log : list Event
}.

Definition set_audio (x : Audio) (p : AudioPlayer) : AudioPlayer :=
  mkPlayer x (queue p) (currentIndex p) (isPlaying p) (volume p) (repeat p)
    (shuffle p) (shuffledQueue p) (audioContext p) (slots p) (pending p) (log p).
Definition set_queue (x : list Track) (p : AudioPlayer) : AudioPlayer :=
  mkPlayer (audio p) x (currentIndex p) (isPlaying p) (volume p) (repeat p)
    (shuffle p) (shuffledQueue p) (audioContext p) (slots p) (pending p) (log p).
Definition set_currentIndex (x : Z) (p : AudioPlayer) : AudioPlayer :=
  mkPlayer (audio p) (queue p) x (isPlaying p) (volume p) (repeat p)
    (shuffle p) (shuffledQueue p) (audioContext p) (slots p) (pending p) (log p).
Definition set_isPlaying (x : bool) (p : AudioPlayer) : AudioPlayer :=
  mkPlayer (audio p) (queue p) (currentIndex p) x (volume p) (repeat p)
    (shuffle p) (shuffledQueue p) (audioContext p) (slots p) (pending p) (log p).
Definition set_volume (x : Q) (p : AudioPlayer) : AudioPlayer :=
  mkPlayer (audio p) (queue p) (currentIndex p) (isPlaying p) x (repeat p)
    (shuffle p) (shuffledQueue p) (audioContext p) (slots p) (pending p) (log p).
Definition set_repeat (x : string) (p : AudioPlayer) : AudioPlayer :=
  mkPlayer (audio p) (queue p) (currentIndex p) (isPlaying p) (volume p) x
    (shuffle p) (shuffledQueue p) (audioContext p) (slots p) (pending p) (log p).
Definition set_shuffle (x : bool) (p : AudioPlayer) : AudioPlayer :=
  mkPlayer (audio p) (queue p) (currentIndex p) (isPlaying p) (volume p) (repeat p)
    x (shuffledQueue p) (audioContext p) (slots p) (pending p) (log p).
Definition set_shuffledQueue (x : list Track) (p : AudioPlayer) : AudioPlayer :=
  mkPlayer (audio p) (queue p) (currentIndex p) (isPlaying p) (volume p) (repeat p)
    (shuffle p) x (audioContext p) (slots p) (pending p) (log p).
Definition set_audioContext (x : option ContextState) (p : AudioPlayer) : AudioPlayer :=
  mkPlayer (audio p) (queue p) (currentIndex p) (isPlaying p) (volume p) (repeat p)
    (shuffle p) (shuffledQueue p) x (slots p) (pending p) (log p).
Definition set_slots (x : Slots) (p : AudioPlayer) : AudioPlayer :=
  mkPlayer (audio p) (queue p) (currentIndex p) (isPlaying p) (volume p) (repeat p)
    (shuffle p) (shuffledQueue p) (audioContext p) x (pending p) (log p).
Definition set_pending (x : list Pending) (p : AudioPlayer) : AudioPlayer :=
  mkPlayer (audio p) (queue p) (currentIndex p) (isPlaying p) (volume p) (repeat p)
    (shuffle p) (shuffledQueue p) (audioContext p) (slots p) x (log p).

(** Append one effect to the trace. *)
Definition emit (e : Event) (p : AudioPlayer) : AudioPlayer :=
  mkPlayer (audio p) (queue p) (currentIndex p) (isPlaying p) (volume p) (repeat p)
    (shuffle p) (shuffledQueue p) (audioContext p) (slots p) (pending p)
    (log p ++ [e]).

(** Leave an [async] method at an [await]. *)
Definition suspend (k : Pending) (p : AudioPlayer) : AudioPlayer :=
  set_pending (pending p ++ [k]) p.

(** [if (this.onX) this.onX(n)] *)
Definition fire (slot : option Handler) (n : Notification) (p : AudioPlayer)
  : AudioPlayer :=
  match slot with
  | Some h => emit (Callback h n) p
  | None => p
  end.

(** Writes to the audio element: the property changes and the write is
    traced. *)
Definition audio_set_src (url : string) (p : AudioPlayer) : AudioPlayer :=
  let a := audio p in
  emit (AudioSrc url)
    (set_audio (mkAudio url (currentTime a) (duration a) (audio_volume a) (muted a)) p).
Definition audio_set_currentTime (t : Q) (p : AudioPlayer) : AudioPlayer :=
  let a := audio p in
  emit (AudioCurrentTime t)
    (set_audio (mkAudio (src a) t (duration a) (audio_volume a) (muted a)) p).
Definition audio_set_volume (v : Q) (p : AudioPlayer) : AudioPlayer :=
  let a := audio p in
  emit (AudioVolume v)
    (set_audio (mkAudio (src a) (currentTime a) (duration a) v (muted a)) p).
Definition audio_set_muted (m : bool) (p : AudioPlayer) : AudioPlayer :=
  let a := audio p in
  emit (AudioMuted m)
    (set_audio (mkAudio (src a) (currentTime a) (duration a) (audio_volume a) m) p).

Definition no_slots : Slots := mkSlots None None None None None.

Definition constructor (audioElement : Audio) : AudioPlayer :=
  mkPlayer audioElement [] (-1) false 1%Q "none" false [] None no_slots [] [].

(** ** Numbers *)

(** [a > b] on finite numbers. *)
Definition Qgtb (a b : Q) : bool := negb (Qle_bool a b).

(** [Math.max(a, b)] and [Math.min(a, b)] on finite numbers. *)
Definition Math_max (a b : Q) : Q := if Qle_bool a b then b else a.
Definition Math_min (a b : Q) : Q := if Qle_bool a b then a else b.

(** ** Queue operations *)

Definition setQueue (rnd : RandomSource) (tracks : list Track)
  (p : AudioPlayer) : AudioPlayer :=
  let p := set_queue tracks p in
  let p := set_shuffledQueue (_shuffleArray rnd tracks) p in
  set_currentIndex (-1) p.

Definition addToQueue (rnd : RandomSource) (tracks : list Track)
  (p : AudioPlayer) : AudioPlayer :=
  let p := set_queue (queue p ++ tracks) p in
  set_shuffledQueue (_shuffleArray rnd (queue p)) p.

Definition clearQueue (p : AudioPlayer) : AudioPlayer :=
  let p := set_queue [] p in
  let p := set_shuffledQueue [] p in
  set_currentIndex (-1) p.

Definition getQueue (p : AudioPlayer) : list Track :=
  if shuffle p then shuffledQueue p else queue p.

Definition getCurrentTrack (p : AudioPlayer) : option Track :=
  let queue := getQueue p in
  if (0 <=? currentIndex p) && (currentIndex p <? Z.of_nat (length queue))
  then queue !! Z.to_nat (currentIndex p)
  else None.

(** ** Transport operations *)

(** [this.audioContext && this.audioContext.state === 'suspended'] *)
Definition context_suspended (p : AudioPlayer) : bool :=
  match audioContext p with
  | Some Suspended => true
  | _ => false
  end.

(** [playIndex(index)] up to its first [await]. *)
Definition playIndex (index : Z) (p : AudioPlayer) : AudioPlayer :=
  let queue := getQueue p in
  if (index <? 0) || (Z.of_nat (length queue) <=? index) then p
  else
    let p := set_currentIndex index p in
    match queue !! Z.to_nat index with
    | None => p
    | Some track =>
        match truthy_url (streamUrl track) with
        | Some url =>
            let p := audio_set_src url p in
            if context_suspended p
            then suspend (PlayIndex_resume track) (emit ContextResume p)
            else suspend (PlayIndex_play track) (emit AudioPlay p)
        | None => p
        end
    end.

(** [play()] up to its first [await]; the call of [playIndex(0)] is not
    awaited. *)
Definition play (p : AudioPlayer) : AudioPlayer :=
  if (currentIndex p <? 0) && (0 <? Z.of_nat (length (queue p)))
  then playIndex 0 p
  else if context_suspended p
  then suspend Play_resume (emit ContextResume p)
  else suspend Play_play (emit AudioPlay p).

(** The rest of a suspended call, once the awaited promise has settled.
    A rejected [resume()] is caught nowhere: the method's own promise
    rejects and nothing else happens. *)
Definition continue (k : Pending) (o : Outcome) (p : AudioPlayer)
  : AudioPlayer :=
  match k, o with
  | PlayIndex_resume track, Fulfilled =>
      suspend (PlayIndex_play track) (emit AudioPlay p)
  | PlayIndex_resume _, Rejected _ => p
  | PlayIndex_play track, Fulfilled =>
      fire (onTrackChange (slots p)) (TrackChange track) p
  | PlayIndex_play _, Rejected e =>
      fire (onError (slots p)) (Error e) (emit (ConsoleError e) p)
  | Play_resume, Fulfilled => suspend Play_play (emit AudioPlay p)
  | Play_resume, Rejected _ => p
  | Play_play, Fulfilled => p
  | Play_play, Rejected e => emit (ConsoleError e) p
  end.

(** The [n]-th suspended call is resumed with outcome [o]. *)
Definition settle (n : nat) (o : Outcome) (p : AudioPlayer) : AudioPlayer :=
  match pending p !! n with
  | Some k => continue k o (set_pending (delete n (pending p)) p)
  | None => p
  end.

Definition pause (p : AudioPlayer) : AudioPlayer := emit AudioPause p.

Definition togglePlay (p : AudioPlayer) : AudioPlayer :=
  if isPlaying p then pause p else play p.

Definition stop (p : AudioPlayer) : AudioPlayer :=
  audio_set_currentTime 0 (emit AudioPause p).

Definition hasNext (p : AudioPlayer) : bool :=
  currentIndex p <? Z.of_nat (length (getQueue p)) - 1.

Definition hasPrevious (p : AudioPlayer) : bool :=
  0 <? currentIndex p.

Definition next (p : AudioPlayer) : AudioPlayer :=
  if hasNext p then playIndex (currentIndex p + 1) p else p.

Definition previous (p : AudioPlayer) : AudioPlayer :=
  if Qgtb (currentTime (audio p)) 3 then audio_set_currentTime 0 p
  else if hasPrevious p then playIndex (currentIndex p - 1) p
  else p.

(** [seek(time)]; [None] is a [time] that is not finite. *)
Definition seek (time : option Q) (p : AudioPlayer) : AudioPlayer :=
  match time with
  | Some t => audio_set_currentTime t p
  | None => p
  end.

(** [seekPercent(percent)]; a [NaN] or zero duration is falsy. The
    position is the exact product here; the code writes the double
    nearest to it, and that rounding keeps the order and is exact at 0
    and at 100 percent. *)
Definition seekPercent (percent : Q) (p : AudioPlayer) : AudioPlayer :=
  match duration (audio p) with
  | Some d =>
      if Qeq_bool d 0 then p
      else audio_set_currentTime ((percent / 100) * d)%Q p
  | None => p
  end.

Definition setVolume (v : Q) (p : AudioPlayer) : AudioPlayer :=
  let p := set_volume (Math_max 0 (Math_min 1 v)) p in
  audio_set_volume (volume p) p.

Definition getVolume (p : AudioPlayer) : Q := volume p.

Definition toggleMute (p : AudioPlayer) : AudioPlayer :=
  audio_set_muted (negb (muted (audio p))) p.

Definition setRepeat (mode : string) (p : AudioPlayer) : AudioPlayer :=
  set_repeat mode p.

Definition toggleShuffle (rnd : RandomSource) (p : AudioPlayer)
  : AudioPlayer :=
  let p := set_shuffle (negb (shuffle p)) p in
  if shuffle p then
    let current := getCurrentTrack p in
    let p := set_shuffledQueue (_shuffleArray rnd (queue p)) p in
    match current with
    | Some current =>
        let idx := findIndex (same_id current) (shuffledQueue p) in
        let p :=
          if 0 <? idx
          then set_shuffledQueue (swap (shuffledQueue p) 0 (Z.to_nat idx)) p
          else p in
        set_currentIndex 0 p
    | None => p
    end
  else
    match getCurrentTrack p with
    | Some current =>
        set_currentIndex (findIndex (same_id current) (queue p)) p
    | None => p
    end.

(** [initAudioContext()]; [created] says how far the [try] block gets. *)
Definition initAudioContext (created : ContextCreation)
  (p : AudioPlayer) : AudioPlayer :=
  match audioContext p with
  | Some _ => p
  | None =>
      match created with
      | ConstructorThrows =>
          emit (ConsoleError "Failed to initialize audio context") p
      | Connected st => set_audioContext (Some st) p
      | ConnectionThrows st =>
          emit (ConsoleError "Failed to initialize audio context")
            (set_audioContext (Some st) p)
      end
  end.

(** ** Listeners on the audio element *)

Definition _handleEnded (p : AudioPlayer) : AudioPlayer :=
  let p := fire (onEnded (slots p)) Ended p in
  if String.eqb (repeat p) "one" then play (audio_set_currentTime 0 p)
  else if hasNext p then next p
  else if String.eqb (repeat p) "all" && (0 <? Z.of_nat (length (queue p)))
  then playIndex 0 p
  else p.

(** [this.audio.duration || 0] *)
Definition duration_or_0 (a : Audio) : Q :=
  match duration a with
  | Some d => if Qeq_bool d 0 then 0%Q else d
  | None => 0%Q
  end.

(** The listeners installed by [_setupEventListeners]. *)
Definition dispatch (ev : AudioEvent) (p : AudioPlayer) : AudioPlayer :=
  match ev with
  | EvPlay =>
      let p := set_isPlaying true p in
      fire (onPlayStateChange (slots p)) (PlayStateChange true) p
  | EvPause =>
      let p := set_isPlaying false p in
      fire (onPlayStateChange (slots p)) (PlayStateChange false) p
  | EvTimeupdate =>
      fire (onTimeUpdate (slots p))
        (TimeUpdate (currentTime (audio p)) (duration_or_0 (audio p))) p
  | EvEnded => _handleEnded p
  | EvError e =>
      fire (onError (slots p)) (Error e) (emit (ConsoleError e) p)
  | EvLoadedmetadata =>
      fire (onTimeUpdate (slots p)) (TimeUpdate 0 (duration_or_0 (audio p))) p
  end.

(** ** Sessions *)

(** What can happen to a player: the host calls a method or assigns the
    callback slots, a suspended call is resumed, the audio element
    delivers an event, or the element and the audio context change state
    on their own (time advances, metadata arrives, the context is
    suspended or resumed by the browser). *)
Inductive Op :=
| OpSetQueue (rnd : RandomSource) (tracks : list Track)
| OpAddToQueue (rnd : RandomSource) (tracks : list Track)
| OpClearQueue
| OpPlayIndex (index : Z)
| OpPlay | OpPause | OpTogglePlay | OpStop | OpNext | OpPrevious
| OpSeek (time : option Q)
| OpSeekPercent (percent : Q)
| OpSetVolume (v : Q)
| OpToggleMute
| OpSetRepeat (mode : string)
| OpToggleShuffle (rnd : RandomSource)
| OpInitAudioContext (created : ContextCreation)
| OpSlots (s : Slots)
| OpSettle (n : nat) (o : Outcome)
| OpDispatch (ev : AudioEvent)
| OpElement (time : Q) (dur : option Q)
| OpContext (st : ContextState).

Definition step (o : Op) (p : AudioPlayer) : AudioPlayer :=
  match o with
  | OpSetQueue rnd tracks => setQueue rnd tracks p
  | OpAddToQueue rnd tracks => addToQueue rnd tracks p
  | OpClearQueue => clearQueue p
  | OpPlayIndex index => playIndex index p
  | OpPlay => play p
  | OpPause => pause p
  | OpTogglePlay => togglePlay p
  | OpStop => stop p
  | OpNext => next p
  | OpPrevious => previous p
  | OpSeek time => seek time p
  | OpSeekPercent percent => seekPercent percent p
  | OpSetVolume v => setVolume v p
  | OpToggleMute => toggleMute p
  | OpSetRepeat mode => setRepeat mode p
  | OpToggleShuffle rnd => toggleShuffle rnd p
  | OpInitAudioContext created => initAudioContext created p
  | OpSlots s => set_slots s p
  | OpSettle n o => settle n o p
  | OpDispatch ev => dispatch ev p
  | OpElement time dur =>
      let a := audio p in
      set_audio (mkAudio (src a) time dur (audio_volume a) (muted a)) p
  | OpContext st =>
      match audioContext p with
      | Some _ => set_audioContext (Some st) p
      | None => p
      end
  end.

(** A session: the operations applied in order. *)
Definition run (ops : list Op) (p : AudioPlayer) : AudioPlayer :=
  fold_left (fun p o => step o p) ops p.

(** ** Invariant *)

(** The part of the state that decides which track is selected. *)
Definition selection (p : AudioPlayer)
  : list Track * list Track * Z * bool :=
  (queue p, shuffledQueue p, currentIndex p, shuffle p).

(** [i] is an index of the active ordering. *)
Definition valid_index (i : Z) (p : AudioPlayer) : Prop :=
  0 <= i < Z.of_nat (length (getQueue p)).

(** [currentIndex] is [-1] (no track selected) or an index of the active
    ordering. *)
Definition index_in_range (p : AudioPlayer) : Prop :=
  currentIndex p <> -1 ->
  0 <= currentIndex p < Z.of_nat (length (getQueue p)).

(** What every reachable player satisfies: the two orderings hold the
    same tracks, and the index is in range. *)
Definition Invariant (p : AudioPlayer) : Prop :=
  shuffledQueue p ≡ₚ queue p /\ index_in_range p.

(** ** Sample data *)

Definition trackA : Track := mkTrack "a" "Track A" (Some "http://host/a").
Definition trackB : Track := mkTrack "b" "Track B" (Some "http://host/b").
Definition trackC : Track := mkTrack "c" "Track C" (Some "http://host/c").

Definition draw_zero : Draw := mkDraw 0 0 eq_refl.
Definition draw_half : Draw := mkDraw 1 1 eq_refl.
Definition draw_quarter : Draw := mkDraw 1 2 eq_refl.

(** The double next to 2/3 from below: three times it is not a double
    and rounds up to 2. *)
Definition draw_two_thirds : Draw := mkDraw 6004799503160661 53 eq_refl.

(** Sources whose every draw is 0, 1/2, and 1/4. *)
Definition rnd_zero : RandomSource := fun _ => draw_zero.
Definition rnd_half : RandomSource := fun _ => draw_half.
Definition rnd_quarter : RandomSource := fun _ => draw_quarter.

(** A silent element with nothing loaded. *)
Definition element0 : Audio := mkAudio "" 0 None 1 false.

(** ** Views of the state *)

(** The settings no transport operation touches on its own: the play
    flag, the volume, the repeat mode and the callback slots. *)
Definition modes (p : AudioPlayer) : bool * Q * string * Slots :=
  (isPlaying p, volume p, repeat p, slots p).

(** What the outside sees: the element's properties, the suspended
    calls and the trace. *)
Definition outside (p : AudioPlayer)
  : Audio * list Pending * list Event :=
  (audio p, pending p, log p).

(** The operations that can change which track is selected. *)
Definition selects (o : Op) : bool :=
  match o with
  | OpSetQueue _ _ | OpAddToQueue _ _ | OpClearQueue | OpPlayIndex _
  | OpPlay | OpTogglePlay | OpNext | OpPrevious | OpToggleShuffle _
  | OpDispatch EvEnded => true
  | _ => false
  end.

(** The two events whose listeners write [isPlaying]. *)
Definition play_state_event (o : Op) : bool :=
  match o with
  | OpDispatch EvPlay | OpDispatch EvPause => true
  | _ => false
  end.

(** ** Formatting times *)

(** A number of seconds as the two formatters can receive it: a whole
    number, [NaN] (a missing duration behaves the same way here), or an
    infinity. Whole numbers stand for themselves up to
    [MAX_SAFE_INTEGER]; there the division by 60 and the conversion to
    decimal digits are exact. *)
Inductive Seconds :=
| Whole (n : Z)
| NotANumber
| Infinite (negative : bool).

Definition MAX_SAFE_INTEGER : Z := 2 ^ 53 - 1.

(** The decimal digits of a whole number, with a minus sign when it is
    negative: what [toString()] and a template literal give. *)
Definition Z_to_string (n : Z) : string :=
  NilZero.string_of_int (Z.to_int n).

Definition number_to_string (x : Seconds) : string :=
  match x with
  | Whole n => Z_to_string n
  | NotANumber => "NaN"
  | Infinite false => "Infinity"
  | Infinite true => "-Infinity"
  end.

(** [Math.floor(seconds / 60)] *)
Definition floor_div_60 (x : Seconds) : Seconds :=
  match x with
  | Whole n => Whole (n / 60)
  | NotANumber => NotANumber
  | Infinite negative => Infinite negative
  end.

(** [Math.floor(seconds % 60)]: the remainder has the sign of
    [seconds]. *)
Definition floor_rem_60 (x : Seconds) : Seconds :=
  match x with
  | Whole n => Whole (Z.rem n 60)
  | NotANumber => NotANumber
  | Infinite _ => NotANumber
  end.

Fixpoint zeros (k : nat) : string :=
  match k with
  | O => EmptyString
  | S k' => String "0" (zeros k')
  end.

(** [s.padStart(targetLength, '0')] *)
Definition padStart (targetLength : nat) (s : string) : string :=
  String.append (zeros (targetLength - String.length s)) s.

(** The template [`${mins}:${secs.toString().padStart(2, '0')}`] shared
    by the two formatters. *)
Definition minutes_seconds (seconds : Seconds) : string :=
  let mins := floor_div_60 seconds in
  let secs := floor_rem_60 seconds in
  String.append (number_to_string mins)
    (String ":" (padStart 2 (number_to_string secs))).

(** [AudioPlayer.formatTime(seconds)] *)
Definition formatTime (seconds : Seconds) : string :=
  match seconds with
  | Whole n => if n <? 0 then "0:00" else minutes_seconds seconds
  | _ => "0:00"
  end.

(** [formatDuration(seconds)] of the playlist view: [!seconds] holds for
    0 and [NaN]. *)
Definition formatDuration (seconds : Seconds) : string :=
  match seconds with
  | Whole 0 => "0:00"
  | NotANumber => "0:00"
  | _ => minutes_seconds seconds
  end.

(** The character of a decimal digit. *)
Definition digit (k : Z) : ascii := ascii_of_nat (48 + Z.to_nat k).

(** ** The snapshot of the state *)

(** The object [getState()] returns. *)
Record PlaybackState := mkPlaybackState {
  st_isPlaying : bool;
  st_currentTime : Q;
  st_duration : Q;
  st_volume : Q;
  st_muted : bool;
  st_repeat : string;
  st_shuffle : bool;
  st_currentTrack : option Track;
  st_queueLength : nat;
  st_currentIndex : Z
}.

Definition getState (p : AudioPlayer) : PlaybackState :=
  mkPlaybackState (isPlaying p) (currentTime (audio p))
    (duration_or_0 (audio p)) (volume p) (muted (audio p)) (repeat p)
    (shuffle p) (getCurrentTrack p) (length (queue p)) (currentIndex p).

(** * Properties *)

(** ** Draws and indices *)

(** Rounding to the nearest moves by at most half a step. *)
Lemma round_half_even_error P s :
  0 <= P -> 1 <= s ->
  2 * (round_half_even P s * 2 ^ s - P) <= 2 ^ s /\
  2 * (P - round_half_even P s * 2 ^ s) <= 2 ^ s.
Proof.
  intros HP Hs. unfold round_half_even.
  assert (Hpow : 2 ^ s = 2 * 2 ^ (s - 1)).
  { rewrite <- Z.pow_succ_r by lia. f_equal. lia. }
  assert (Hhalf : 0 < 2 ^ (s - 1)) by (apply Z.pow_pos_nonneg; lia).
  pose proof (Z.div_mod P (2 ^ s) ltac:(lia)) as Hdm.
  pose proof (Z.mod_pos_bound P (2 ^ s) ltac:(lia)) as Hrem.
  set (q := P / 2 ^ s) in *. set (rem := P mod 2 ^ s) in *.
  set (h := 2 ^ (s - 1)) in *.
  destruct (rem <? h) eqn:E1; [apply Z.ltb_lt in E1; nia|].
  apply Z.ltb_ge in E1.
  destruct (h <? rem) eqn:E2; [apply Z.ltb_lt in E2; nia|].
  apply Z.ltb_ge in E2.
  destruct (Z.even q); nia.
Qed.

(** Rounding to a double moves a number by at most its [2^-53]-th
    part. *)
Lemma round_double_error P :
  0 <= P ->
  (round_double P - P) * 2 ^ 53 <= P /\ (P - round_double P) * 2 ^ 53 <= P.
Proof.
  intros HP. unfold round_double.
  destruct (P <? 2 ^ 53) eqn:E; [apply Z.ltb_lt in E; lia|].
  apply Z.ltb_ge in E.
  assert (Hpos : 0 < P) by lia.
  pose proof (Z.log2_spec P Hpos) as [Hlo _].
  assert (Hlog : 53 <= Z.log2 P).
  { apply Z.log2_le_pow2; lia. }
  set (s := Z.log2 P - 52) in *.
  assert (Hs : 1 <= s) by lia.
  destruct (round_half_even_error P s HP Hs) as [H1 H2].
  assert (Hsplit : 2 ^ Z.log2 P = 2 ^ (s - 1) * 2 ^ 53).
  { rewrite <- Z.pow_add_r by lia. f_equal. lia. }
  assert (Hpow : 2 ^ s = 2 * 2 ^ (s - 1)).
  { rewrite <- Z.pow_succ_r by lia. f_equal. lia. }
  set (R := round_half_even P s * 2 ^ s) in *.
  set (h := 2 ^ (s - 1)) in *.
  set (B := 2 ^ 53) in *.
  assert (HB : 0 < B) by (subst B; lia).
  split; nia.
Qed.

Lemma draw_facts (r : Draw) :
  let m := draw_mantissa r in
  let K := 2 ^ Z.of_nat (draw_scale r) in
  0 <= m /\ m < 2 ^ 53 /\ m < K /\ 0 < K /\
  m * 2 ^ 53 <= (2 ^ 53 - 1) * K.
Proof.
  destruct r as [m k Hr]. simpl.
  apply andb_prop in Hr as [Hr _]. apply andb_prop in Hr as [Hr H3].
  apply andb_prop in Hr as [H1 H2].
  apply Z.leb_le in H1. apply Z.ltb_lt in H2, H3.
  assert (HK : 0 < 2 ^ Z.of_nat k) by (apply Z.pow_pos_nonneg; lia).
  repeat split; try assumption.
  destruct (Z_le_gt_dec (2 ^ Z.of_nat k) (2 ^ 53)) as [Hle|Hgt]; nia.
Qed.

Lemma draw_val_bounds (r : Draw) : (0 <= draw_val r)%Q /\ (draw_val r < 1)%Q.
Proof.
  destruct (draw_facts r) as (H0 & _ & HK & HKpos & _).
  unfold draw_val, Qle, Qlt. simpl.
  rewrite Z2Pos.id by assumption. lia.
Qed.

(** The rounded product [R] and the exact one [P]. *)
Lemma product_error (r : Draw) (n : Z) :
  0 <= n ->
  let P := draw_mantissa r * n in
  let R := round_double P in
  0 <= P /\ 0 <= R /\
  (R - P) * 2 ^ 53 <= P /\ (P - R) * 2 ^ 53 <= P.
Proof.
  intros Hn. simpl.
  destruct (draw_facts r) as (H0 & _).
  assert (HP : 0 <= draw_mantissa r * n) by nia.
  destruct (round_double_error _ HP) as [H1 H2].
  repeat split; try assumption. nia.
Qed.

(** The index drawn at loop variable [i] lies in [0..i]. *)
Lemma random_index_le (r : Draw) (i : nat) : (random_index r i <= i)%nat.
Proof.
  unfold random_index.
  destruct (draw_facts r) as (H0 & _ & _ & HK & Hr).
  destruct (product_error r (Z.of_nat i + 1) ltac:(lia)) as (HP & HR & H1 & _).
  set (n := Z.of_nat i + 1) in *.
  set (P := draw_mantissa r * n) in *. set (R := round_double P) in *.
  set (K := 2 ^ Z.of_nat (draw_scale r)) in *.
  set (B := 2 ^ 53) in *.
  assert (HB : 1 < B) by (subst B; lia).
  assert (HPB : P * B <= (B - 1) * (n * K)).
  { subst P. nia. }
  assert (HRlt : R < n * K).
  { assert (R * B <= P * (B + 1)) by nia.
    assert (R * B * B <= (B - 1) * (B + 1) * (n * K)) by nia.
    assert (0 < n * K) by nia.
    nia. }
  assert (R / K < n) by (apply Z.div_lt_upper_bound; nia).
  assert (0 <= R / K) by (apply Z.div_pos; lia).
  lia.
Qed.

(** The index drawn and the exact product [P / K] of the draw and
    [i + 1]: [j] is drawn when the product lies in [[j, j + 1)] with more
    than its [2^-53]-th part to spare at both ends, and only when it lies
    there up to that part. *)
Lemma random_index_near (r : Draw) (i j : nat) :
  let P := draw_mantissa r * (Z.of_nat i + 1) in
  let K := 2 ^ Z.of_nat (draw_scale r) in
  (Z.of_nat j * K * 2 ^ 53 <= P * (2 ^ 53 - 1) ->
   P * (2 ^ 53 + 1) < (Z.of_nat j + 1) * K * 2 ^ 53 ->
   random_index r i = j) /\
  (random_index r i = j ->
   Z.of_nat j * K * 2 ^ 53 <= P * (2 ^ 53 + 1) /\
   P * (2 ^ 53 - 1) < (Z.of_nat j + 1) * K * 2 ^ 53).
Proof.
  simpl. unfold random_index.
  destruct (draw_facts r) as (H0 & _ & _ & HK & Hr).
  destruct (product_error r (Z.of_nat i + 1) ltac:(lia)) as (HP & HR & H1 & H2).
  set (n := Z.of_nat i + 1) in *.
  set (P := draw_mantissa r * n) in *. set (R := round_double P) in *.
  set (K := 2 ^ Z.of_nat (draw_scale r)) in *.
  set (B := 2 ^ 53) in *.
  assert (HB : 1 < B) by (subst B; lia).
  split.
  - intros Hlo Hhi.
    assert (Hq : R / K = Z.of_nat j); [|lia].
    symmetry. apply Z.div_unique with (r := R - K * Z.of_nat j); [|lia].
    left. split; nia.
  - intros Hj.
    assert (Hq : R / K = Z.of_nat j).
    { assert (0 <= R / K) by (apply Z.div_pos; lia). lia. }
    pose proof (Z.mul_div_le R K HK) as Hlo.
    pose proof (Z.mul_succ_div_gt R K HK) as Hhi.
    rewrite Hq in Hlo, Hhi. split; nia.
Qed.

(** The same comparisons on rationals and on integers. *)
Lemma roundoff_bridge (r : Draw) (n j : Z) :
  let x := (draw_val r * inject_Z n)%Q in
  let P := draw_mantissa r * n in
  let K := 2 ^ Z.of_nat (draw_scale r) in
  ((inject_Z j <= x * (1 - unit_roundoff))%Q <->
     j * K * 2 ^ 53 <= P * (2 ^ 53 - 1)) /\
  ((x * (1 + unit_roundoff) < inject_Z j)%Q <->
     P * (2 ^ 53 + 1) < j * K * 2 ^ 53) /\
  ((inject_Z j <= x * (1 + unit_roundoff))%Q <->
     j * K * 2 ^ 53 <= P * (2 ^ 53 + 1)) /\
  ((x * (1 - unit_roundoff) < inject_Z j)%Q <->
     P * (2 ^ 53 - 1) < j * K * 2 ^ 53).
Proof.
  simpl.
  destruct (draw_facts r) as (_ & _ & _ & HK & _).
  unfold draw_val, unit_roundoff, Qle, Qlt, Qmult, Qminus, Qplus, Qopp,
    inject_Z.
  simpl Qnum. simpl Qden.
  rewrite !Pos2Z.inj_mul, Z2Pos.id by assumption.
  set (K := 2 ^ Z.of_nat (draw_scale r)) in *.
  change (2 ^ 53) with 9007199254740992.
  set (P := draw_mantissa r * n).
  repeat split; intros H; nia.
Qed.

(** The index drawn, on rationals: with [x] the exact product of the
    draw and [i + 1] and [u = 2^-53], index [j] is drawn when
    [j <= x (1 - u)] and [x (1 + u) < j + 1], and only when
    [j <= x (1 + u)] and [x (1 - u) < j + 1]. The draws of index [j] are
    those of [[j/(i+1), (j+1)/(i+1))] up to that rounding at the two
    ends. *)
Lemma random_index_interval (r : Draw) (i j : nat) :
  let x := (draw_val r * inject_Z (Z.of_nat i + 1))%Q in
  ((inject_Z (Z.of_nat j) <= x * (1 - unit_roundoff))%Q ->
   (x * (1 + unit_roundoff) < inject_Z (Z.of_nat j + 1))%Q ->
   random_index r i = j) /\
  (random_index r i = j ->
   (inject_Z (Z.of_nat j) <= x * (1 + unit_roundoff))%Q /\
   (x * (1 - unit_roundoff) < inject_Z (Z.of_nat j + 1))%Q).
Proof.
  intros x.
  destruct (roundoff_bridge r (Z.of_nat i + 1) (Z.of_nat j))
    as (B1 & _ & B3 & _).
  destruct (roundoff_bridge r (Z.of_nat i + 1) (Z.of_nat j + 1))
    as (_ & B2 & _ & B4).
  destruct (random_index_near r i j) as [Hin Hout].
  split.
  - intros Hlo Hhi. apply Hin; [now apply B1 | now apply B2].
  - intros Hj. destruct (Hout Hj) as [H1 H2].
    split; [now apply B3 | now apply B4].
Qed.

(** ** Swaps and searches *)

Section ArrayFacts.
Context {A : Type}.
Implicit Types (a : list A) (p : A -> bool).

Lemma swap_in_range a i j :
  (i < length a)%nat -> (j < length a)%nat ->
  exists ai aj, a !! i = Some ai /\ a !! j = Some aj /\
                swap a i j = <[j := ai]> (<[i := aj]> a).
Proof.
  intros Hi Hj.
  destruct (lookup_lt_is_Some_2 a i Hi) as [ai Hai].
  destruct (lookup_lt_is_Some_2 a j Hj) as [aj Haj].
  exists ai, aj. unfold swap. now rewrite Hai, Haj.
Qed.

Lemma swap_Permutation a i j : swap a i j ≡ₚ a.
Proof.
  unfold swap.
  destruct (a !! j) as [aj|] eqn:Hj; [|reflexivity].
  destruct (a !! i) as [ai|] eqn:Hi; [|reflexivity].
  now apply Permutation_insert_swap.
Qed.

Lemma swap_length a i j : length (swap a i j) = length a.
Proof. apply Permutation_length, swap_Permutation. Qed.

(** After a swap inside the array, position [i] holds what was at [j]. *)
Lemma swap_lookup_l a i j aj :
  (i < length a)%nat -> a !! j = Some aj -> swap a i j !! i = Some aj.
Proof.
  intros Hi Hj.
  destruct (lookup_lt_is_Some_2 a i Hi) as [ai Hai].
  unfold swap. rewrite Hj, Hai.
  destruct (decide (i = j)) as [->|Hne].
  - rewrite list_insert_insert_eq, list_lookup_insert_eq by assumption.
    congruence.
  - rewrite list_lookup_insert_ne by congruence.
    now rewrite list_lookup_insert_eq.
Qed.

Lemma findIndex_from_spec p k a :
  (findIndex_from p k a = -1 /\ forall x, x ∈ a -> p x = false) \/
  (exists n x, findIndex_from p k a = k + Z.of_nat n /\
               a !! n = Some x /\ p x = true /\
               forall m y, (m < n)%nat -> a !! m = Some y -> p y = false).
Proof.
  revert k. induction a as [|x a IH]; intros k; simpl.
  - left. split; [reflexivity|]. intros x Hx. inversion Hx.
  - destruct (p x) eqn:Hpx.
    + right. exists 0%nat, x. repeat split; try assumption; [lia|].
      intros m y Hm. lia.
    + destruct (IH (k + 1)) as [[Hm Hall]|(n & y & Hidx & Hy & Hpy & Hmin)].
      * left. split; [exact Hm|].
        intros z Hz. apply elem_of_cons in Hz as [->|Hz]; auto.
      * right. exists (S n), y. repeat split; try assumption; [lia|].
        intros [|m] z Hlt Hz; simpl in Hz; [congruence|].
        apply (Hmin m z); [lia|exact Hz].
Qed.

(** [findIndex] gives [-1], or the first position whose element
    satisfies the predicate. *)
Lemma findIndex_spec p a :
  (findIndex p a = -1 /\ forall x, x ∈ a -> p x = false) \/
  (exists n x, findIndex p a = Z.of_nat n /\
               a !! n = Some x /\ p x = true /\
               forall m y, (m < n)%nat -> a !! m = Some y -> p y = false).
Proof.
  unfold findIndex.
  destruct (findIndex_from_spec p 0 a) as [H|(n & x & H1 & H2)];
    [left; exact H | right; exists n, x; split; [lia|exact H2]].
Qed.

Lemma findIndex_range p a :
  findIndex p a = -1 \/ 0 <= findIndex p a < Z.of_nat (length a).
Proof.
  destruct (findIndex_spec p a) as [[H _]|(n & x & H & Hx & _)];
    [now left | right].
  apply lookup_lt_Some in Hx. lia.
Qed.

Lemma findIndex_found p a x :
  x ∈ a -> p x = true -> 0 <= findIndex p a < Z.of_nat (length a).
Proof.
  intros Hin Hp.
  destruct (findIndex_spec p a) as [[_ Hall]|(n & y & H & Hy & _)].
  - rewrite (Hall x Hin) in Hp. discriminate.
  - apply lookup_lt_Some in Hy. lia.
Qed.

Lemma findIndex_lookup p a :
  0 <= findIndex p a ->
  exists x, a !! Z.to_nat (findIndex p a) = Some x /\ p x = true.
Proof.
  intros Hge.
  destruct (findIndex_spec p a) as [[H _]|(n & y & H & Hy & Hp & _)];
    [lia|].
  exists y. rewrite H, Nat2Z.id. auto.
Qed.

(** ** The shuffle *)

Lemma shuffle_loop_Permutation rnd k i a : shuffle_loop rnd k i a ≡ₚ a.
Proof.
  revert k a. induction i as [|i IH]; intros k a; simpl; [reflexivity|].
  rewrite IH. apply swap_Permutation.
Qed.

Lemma _shuffleArray_Permutation rnd a : _shuffleArray rnd a ≡ₚ a.
Proof. apply shuffle_loop_Permutation. Qed.

Lemma _shuffleArray_length rnd a : length (_shuffleArray rnd a) = length a.
Proof. apply Permutation_length, _shuffleArray_Permutation. Qed.

(** The loop run from [i] performs the swaps of Fisher-Yates for the
    indices [i, i-1, ..., 1] with the indices the source draws. *)
Lemma shuffle_loop_fold rnd (choice : nat -> nat) k i a :
  (forall m, (1 <= m <= i)%nat ->
             choice m = random_index (rnd (k + (i - m))%nat) m) ->
  shuffle_loop rnd k i a =
  fold_left (fun a i => swap a i (choice i)) (rev (seq 1 i)) a.
Proof.
  revert k a. induction i as [|i IH]; intros k a Hc; [reflexivity|].
  rewrite seq_S, rev_app_distr. simpl.
  rewrite (Hc (S i)) by lia.
  replace (k + (S i - S i))%nat with k by lia.
  apply IH. intros m Hm. rewrite (Hc m) by lia.
  f_equal. f_equal. lia.
Qed.

Lemma _shuffleArray_fisher_yates rnd a :
  _shuffleArray rnd a = fisher_yates (drawn rnd (length a)) a.
Proof.
  unfold _shuffleArray, fisher_yates.
  apply shuffle_loop_fold. intros m Hm. reflexivity.
Qed.
End ArrayFacts.

(** ** What the helpers leave alone *)

Lemma selection_emit e p : selection (emit e p) = selection p.
Proof. reflexivity. Qed.

Lemma selection_suspend k p : selection (suspend k p) = selection p.
Proof. reflexivity. Qed.

Lemma selection_fire slot n p : selection (fire slot n p) = selection p.
Proof. destruct slot; reflexivity. Qed.

Lemma selection_audio_set_currentTime t p :
  selection (audio_set_currentTime t p) = selection p.
Proof. reflexivity. Qed.

Lemma selection_getQueue p q :
  selection p = selection q -> getQueue p = getQueue q.
Proof. unfold selection, getQueue. intros [= -> -> _ ->]. reflexivity. Qed.

Lemma selection_Invariant p q :
  selection p = selection q -> Invariant p -> Invariant q.
Proof.
  intros Hs [Hperm Hidx]. pose proof (selection_getQueue _ _ Hs) as Hq.
  unfold selection in Hs. injection Hs as Hqu Hsh Hci Hfl.
  split.
  - now rewrite <- Hqu, <- Hsh.
  - unfold index_in_range in *. now rewrite <- Hci, <- Hq.
Qed.

(** The active ordering is as long as the canonical one. *)
Lemma Invariant_length p :
  Invariant p -> length (getQueue p) = length (queue p).
Proof.
  intros [Hperm _]. unfold getQueue. destruct (shuffle p); [|reflexivity].
  now apply Permutation_length.
Qed.

(** ** [playIndex] *)

Lemma playIndex_out_of_range i p : ~ valid_index i p -> playIndex i p = p.
Proof.
  unfold valid_index, playIndex. intros H.
  destruct (i <? 0) eqn:E1; [reflexivity|].
  destruct (Z.of_nat (length (getQueue p)) <=? i) eqn:E2; [reflexivity|].
  lia.
Qed.

Lemma playIndex_selection i p :
  valid_index i p ->
  selection (playIndex i p) = (queue p, shuffledQueue p, i, shuffle p).
Proof.
  unfold valid_index, playIndex. intros H.
  destruct (i <? 0) eqn:E1; [lia|].
  destruct (Z.of_nat (length (getQueue p)) <=? i) eqn:E2; [lia|]. simpl.
  destruct (getQueue p !! Z.to_nat i) as [track|]; [|reflexivity].
  destruct (truthy_url (streamUrl track)); [|reflexivity].
  destruct (context_suspended _); reflexivity.
Qed.

Lemma playIndex_currentIndex i p :
  valid_index i p -> currentIndex (playIndex i p) = i.
Proof.
  intros H. apply playIndex_selection in H.
  unfold selection in H. congruence.
Qed.

Lemma playIndex_getQueue i p : getQueue (playIndex i p) = getQueue p.
Proof.
  destruct (decide (valid_index i p)) as [H|H].
  - apply playIndex_selection in H. unfold selection, getQueue in *.
    injection H as -> -> _ ->. reflexivity.
  - now rewrite playIndex_out_of_range.
Qed.

Lemma playIndex_Invariant i p : Invariant p -> Invariant (playIndex i p).
Proof.
  intros Hinv.
  destruct (decide (valid_index i p)) as [H|H].
  - pose proof (playIndex_selection i p H) as Hs.
    pose proof (playIndex_getQueue i p) as Hq.
    unfold selection in Hs. injection Hs as Hqu Hsh Hci Hfl.
    destruct Hinv as [Hperm _]. split.
    + now rewrite Hqu, Hsh.
    + unfold index_in_range. rewrite Hci, Hq. intros _. exact H.
  - now rewrite playIndex_out_of_range.
Qed.

(** ** Suspended calls *)

Lemma selection_continue k o p : selection (continue k o p) = selection p.
Proof.
  destruct k, o; simpl; try reflexivity;
    unfold fire; destruct (_ (slots p)); reflexivity.
Qed.

Lemma selection_settle n o p : selection (settle n o p) = selection p.
Proof.
  unfold settle. destruct (pending p !! n); [|reflexivity].
  now rewrite selection_continue.
Qed.

(** ** The invariant is kept by every operation *)

Lemma Invariant_constructor a : Invariant (constructor a).
Proof. split; [reflexivity|]. intros H. now contradict H. Qed.

Lemma setQueue_Invariant rnd tracks p : Invariant (setQueue rnd tracks p).
Proof.
  split; simpl.
  - apply _shuffleArray_Permutation.
  - intros H. now contradict H.
Qed.

Lemma addToQueue_Invariant rnd tracks p :
  Invariant p -> Invariant (addToQueue rnd tracks p).
Proof.
  intros [Hperm Hidx]. split; simpl.
  - apply _shuffleArray_Permutation.
  - unfold index_in_range, getQueue in *. simpl. intros Hne.
    specialize (Hidx Hne).
    apply Permutation_length in Hperm.
    destruct (shuffle p);
      rewrite ?_shuffleArray_length, length_app; lia.
Qed.

Lemma clearQueue_Invariant p : Invariant (clearQueue p).
Proof. split; [reflexivity|]. intros H. now contradict H. Qed.

Lemma play_Invariant p : Invariant p -> Invariant (play p).
Proof.
  intros H. unfold play.
  destruct (_ && _); [now apply playIndex_Invariant|].
  destruct (context_suspended p); exact (selection_Invariant p _ eq_refl H).
Qed.

Lemma next_Invariant p : Invariant p -> Invariant (next p).
Proof.
  intros H. unfold next.
  destruct (hasNext p); [now apply playIndex_Invariant | exact H].
Qed.

Lemma previous_Invariant p : Invariant p -> Invariant (previous p).
Proof.
  intros H. unfold previous.
  destruct (Qgtb _ _); [exact (selection_Invariant p _ eq_refl H)|].
  destruct (hasPrevious p); [now apply playIndex_Invariant | exact H].
Qed.

Lemma getCurrentTrack_Some p t :
  getCurrentTrack p = Some t ->
  valid_index (currentIndex p) p /\
  getQueue p !! Z.to_nat (currentIndex p) = Some t.
Proof.
  unfold getCurrentTrack, valid_index.
  destruct (0 <=? currentIndex p) eqn:E1; [|discriminate].
  destruct (currentIndex p <? _) eqn:E2; [|discriminate]. simpl.
  intros H. split; [lia | exact H].
Qed.

Lemma getCurrentTrack_valid p :
  valid_index (currentIndex p) p -> is_Some (getCurrentTrack p).
Proof.
  unfold getCurrentTrack, valid_index. intros H.
  destruct (0 <=? currentIndex p) eqn:E1; [|lia].
  destruct (currentIndex p <? _) eqn:E2; [|lia]. simpl.
  apply lookup_lt_is_Some_2. lia.
Qed.

(** The ordering [toggleShuffle] builds when it turns shuffle on and
    [current] is the track it read. *)
Lemma enabled_ordering_Permutation rnd (q : list Track) current :
  let sq := _shuffleArray rnd q in
  let idx := findIndex (same_id current) sq in
  (if 0 <? idx then swap sq 0 (Z.to_nat idx) else sq) ≡ₚ q.
Proof.
  simpl. destruct (0 <? _).
  - rewrite swap_Permutation. apply _shuffleArray_Permutation.
  - apply _shuffleArray_Permutation.
Qed.

Lemma toggleShuffle_Invariant rnd p :
  Invariant p -> Invariant (toggleShuffle rnd p).
Proof.
  intros [Hperm Hidx]. unfold toggleShuffle.
  destruct (shuffle p) eqn:Hsh; simpl.
  - (* shuffle is turned off *)
    destruct (getCurrentTrack _) as [current|] eqn:Hcur.
    + split; [exact Hperm|].
      unfold index_in_range, getQueue. simpl. intros Hne.
      destruct (findIndex_range (same_id current) (queue p)); [easy|lia].
    + split; [exact Hperm|].
      unfold index_in_range, getQueue in *. simpl. rewrite Hsh in Hidx.
      intros Hne. specialize (Hidx Hne).
      apply Permutation_length in Hperm. lia.
  - (* shuffle is turned on *)
    destruct (getCurrentTrack _) as [current|] eqn:Hcur.
    + apply getCurrentTrack_Some in Hcur as [Hv _].
      unfold valid_index, getQueue in Hv. simpl in Hv.
      pose proof (enabled_ordering_Permutation rnd (queue p) current) as Hp.
      simpl in Hp.
      split.
      * simpl. destruct (0 <? _); simpl; exact Hp.
      * unfold index_in_range, getQueue. simpl. intros _.
        apply Permutation_length in Hperm, Hp.
        destruct (0 <? _); simpl; lia.
    + split; simpl; [apply _shuffleArray_Permutation|].
      unfold index_in_range, getQueue in *. simpl. rewrite Hsh in Hidx.
      intros Hne. specialize (Hidx Hne).
      rewrite _shuffleArray_length. lia.
Qed.

Lemma _handleEnded_Invariant p : Invariant p -> Invariant (_handleEnded p).
Proof.
  intros H. unfold _handleEnded.
  assert (H1 : Invariant (fire (onEnded (slots p)) Ended p)).
  { apply (selection_Invariant p); [|exact H]. now rewrite selection_fire. }
  destruct (String.eqb _ "one").
  - apply play_Invariant.
    exact (selection_Invariant _ _ eq_refl H1).
  - destruct (hasNext _); [now apply next_Invariant|].
    destruct (_ && _); [now apply playIndex_Invariant | exact H1].
Qed.

Lemma dispatch_Invariant ev p : Invariant p -> Invariant (dispatch ev p).
Proof.
  intros H.
  destruct ev; simpl; try (apply (selection_Invariant p); [|exact H];
    now rewrite selection_fire).
  now apply _handleEnded_Invariant.
Qed.

(** One step of a session keeps the invariant, whatever the operation,
    its draws and the outcomes it is given. *)
Lemma step_Invariant o p : Invariant p -> Invariant (step o p).
Proof.
  intros H. destruct o; simpl.
  - apply setQueue_Invariant.
  - now apply addToQueue_Invariant.
  - apply clearQueue_Invariant.
  - now apply playIndex_Invariant.
  - now apply play_Invariant.
  - exact (selection_Invariant p _ eq_refl H).
  - unfold togglePlay. destruct (isPlaying p);
      [exact (selection_Invariant p _ eq_refl H) | now apply play_Invariant].
  - exact (selection_Invariant p _ eq_refl H).
  - now apply next_Invariant.
  - now apply previous_Invariant.
  - destruct time; [exact (selection_Invariant p _ eq_refl H) | exact H].
  - unfold seekPercent. destruct (duration _); [|exact H].
    destruct (Qeq_bool _ _); [exact H|].
    exact (selection_Invariant p _ eq_refl H).
  - exact (selection_Invariant p _ eq_refl H).
  - exact (selection_Invariant p _ eq_refl H).
  - exact (selection_Invariant p _ eq_refl H).
  - now apply toggleShuffle_Invariant.
  - unfold initAudioContext. destruct (audioContext p); [exact H|].
    destruct created; exact (selection_Invariant p _ eq_refl H).
  - exact (selection_Invariant p _ eq_refl H).
  - apply (selection_Invariant p); [|exact H]. now rewrite selection_settle.
  - now apply dispatch_Invariant.
  - exact (selection_Invariant p _ eq_refl H).
  - destruct (audioContext p); [|exact H].
    exact (selection_Invariant p _ eq_refl H).
Qed.

Lemma run_Invariant ops p : Invariant p -> Invariant (run ops p).
Proof.
  revert p. induction ops as [|o ops IH]; intros p H; [exact H|].
  simpl. apply IH. now apply step_Invariant.
Qed.

(** Every admissible mantissa and scale is a draw. *)
Lemma draw_exists (m : Z) (k : nat) :
  0 <= m -> m < 2 ^ 53 -> m < 2 ^ Z.of_nat k -> (k <= 1074)%nat ->
  exists r : Draw, draw_mantissa r = m /\ draw_scale r = k.
Proof.
  intros H0 H1 H2 H3.
  assert (Hr : (0 <=? m) && (m <? 2 ^ 53) && (m <? 2 ^ Z.of_nat k) &&
               Nat.leb k 1074 = true).
  { repeat (apply andb_true_intro; split).
    - now apply Z.leb_le.
    - now apply Z.ltb_lt.
    - now apply Z.ltb_lt.
    - now apply Nat.leb_le. }
  exists (mkDraw m k Hr). split; reflexivity.
Qed.

(** Every index of [0..i] is drawn by some double, for the lengths an
    array can have: a double next to [(j + 1/2) / (i + 1)] draws [j]. *)
Lemma random_index_onto (i j : nat) :
  (j <= i)%nat -> Z.of_nat i + 1 <= 2 ^ 32 ->
  exists r : Draw, random_index r i = j.
Proof.
  intros Hj Hn.
  set (n := Z.of_nat i + 1) in *.
  set (a := (2 * Z.of_nat j + 1) * 2 ^ 52).
  assert (Hn0 : 0 < n) by lia.
  pose proof (Z.mul_div_le a n Hn0) as Hlo.
  pose proof (Z.mul_succ_div_gt a n Hn0) as Hhi.
  assert (Hm0 : 0 <= a / n) by (apply Z.div_pos; lia).
  assert (Hm1 : a / n < 2 ^ 53).
  { apply Z.div_lt_upper_bound; [lia|]. subst a.
    change (2 ^ 53) with (2 * 2 ^ 52). nia. }
  destruct (draw_exists (a / n) 53 Hm0 Hm1 Hm1 ltac:(lia)) as (r & Hm & Hk).
  exists r.
  apply (proj1 (random_index_near r i j)); rewrite Hm, Hk; fold n;
    change (2 ^ Z.of_nat 53) with 9007199254740992;
    change (2 ^ 53) with 9007199254740992;
    change (2 ^ 32) with 4294967296 in Hn;
    subst a; change (2 ^ 52) with 4503599627370496 in *;
    set (q := (2 * Z.of_nat j + 1) * 4503599627370496 / n) in *; nia.
Qed.

(** ** The claims *)

(** C6: after [setQueue(T)], for every track sequence [T], the canonical
    ordering is [T] in order, the shuffled ordering is a permutation of
    [T], and no track is selected ([currentIndex] is [-1]). The shuffled
    ordering is the Fisher-Yates shuffle of [T]: for [i] from the last
    index down to 1, element [i] is swapped with the element at the drawn
    index [floor(Math.random() * (i + 1))], which lies in [0..i]. The
    product is rounded to a double before the floor: with [x] the exact
    product and [u = 2^-53], index [j] is drawn when [j <= x (1 - u)] and
    [x (1 + u) < j + 1], and only when [j <= x (1 + u)] and
    [x (1 - u) < j + 1]; so the draws of each of the [i + 1] indices are
    an interval of length [1/(i+1)] up to that rounding, and a uniform
    draw makes the index uniform to the same precision. An empty [T]
    gives two empty orderings. *)
Theorem C6_setQueue_orderings (rnd : RandomSource) (T : list Track)
  (p : AudioPlayer) :
  let p' := setQueue rnd T p in
  queue p' = T /\
  shuffledQueue p' ≡ₚ T /\
  currentIndex p' = -1 /\
  shuffledQueue p' = fisher_yates (drawn rnd (length T)) T /\
  (forall i, (drawn rnd (length T) i <= i)%nat) /\
  (forall i j,
     let x := (draw_val (rnd (length T - 1 - i)%nat)
               * inject_Z (Z.of_nat i + 1))%Q in
     ((inject_Z (Z.of_nat j) <= x * (1 - unit_roundoff))%Q ->
      (x * (1 + unit_roundoff) < inject_Z (Z.of_nat j + 1))%Q ->
      drawn rnd (length T) i = j) /\
     (drawn rnd (length T) i = j ->
      (inject_Z (Z.of_nat j) <= x * (1 + unit_roundoff))%Q /\
      (x * (1 - unit_roundoff) < inject_Z (Z.of_nat j + 1))%Q)) /\
  (T = [] -> queue p' = [] /\ shuffledQueue p' = []).
Proof.
  simpl.
  split; [reflexivity|]. split; [apply _shuffleArray_Permutation|].
  split; [reflexivity|]. split; [apply _shuffleArray_fisher_yates|].
  split; [intros i; apply random_index_le|].
  split; [intros i j; apply random_index_interval|].
  intros ->. split; reflexivity.
Qed.

Lemma C6_setQueue_orderings_witness :
  let p' := setQueue rnd_half [trackA; trackB; trackC] (constructor element0) in
  let rnd23 : RandomSource := fun _ => draw_two_thirds in
  queue p' = [trackA; trackB; trackC] /\
  shuffledQueue p' = [trackA; trackC; trackB] /\
  currentIndex p' = -1 /\
  shuffledQueue (setQueue rnd_half [] p') = [] /\
  shuffledQueue (setQueue rnd23 [trackA; trackB; trackC] p') =
    [trackA; trackB; trackC].
Proof.
  intros p' rnd23.
  pose proof (C6_setQueue_orderings rnd_half [trackA; trackB; trackC]
                (constructor element0)) as (H1 & _ & H3 & H4 & _).
  pose proof (C6_setQueue_orderings rnd_half [] p')
    as (_ & _ & _ & _ & _ & _ & H7).
  pose proof (C6_setQueue_orderings rnd23 [trackA; trackB; trackC] p')
    as (_ & _ & _ & H8 & _).
  split; [exact H1|]. split; [unfold p'; rewrite H4; reflexivity|].
  split; [exact H3|]. split; [apply (H7 eq_refl)|].
  rewrite H8. vm_compute. reflexivity.
Defined.

(** C3: for an index [i] of the active ordering, [playIndex(i)] sets
    [currentIndex] to [i] in its synchronous part, before the audio
    element has answered; however the suspended call is resumed later
    (fulfilled or rejected), [currentIndex] stays [i]. For an [i] outside
    the active ordering, [playIndex(i)] changes nothing: same state, same
    trace of commands, no suspended call. *)
Theorem C3_playIndex_sets_index (i : Z) (p : AudioPlayer) :
  (valid_index i p ->
     currentIndex (playIndex i p) = i /\
     forall n o, currentIndex (settle n o (playIndex i p)) = i) /\
  (~ valid_index i p -> playIndex i p = p).
Proof.
  split.
  - intros H. pose proof (playIndex_currentIndex i p H) as Hi.
    split; [exact Hi|]. intros n o.
    pose proof (selection_settle n o (playIndex i p)) as Hs.
    unfold selection in Hs. congruence.
  - apply playIndex_out_of_range.
Qed.

Lemma C3_playIndex_sets_index_witness :
  let p := setQueue rnd_half [trackA; trackB] (constructor element0) in
  (currentIndex (playIndex 1 p) = 1 /\
   currentIndex (settle 0 (Rejected "NotSupportedError") (playIndex 1 p)) = 1) /\
  playIndex 2 p = p /\ playIndex (-1) p = p.
Proof.
  intros p.
  destruct (C3_playIndex_sets_index 1 p) as [Hin _].
  destruct (C3_playIndex_sets_index 2 p) as [_ Hout2].
  destruct (C3_playIndex_sets_index (-1) p) as [_ Hout1].
  split; [|split].
  - destruct Hin as [H1 H2]; [unfold valid_index; simpl; lia|].
    split; [exact H1|apply H2].
  - apply Hout2. unfold valid_index. simpl. lia.
  - apply Hout1. unfold valid_index. simpl. lia.
Defined.

(** ** Volume *)

Lemma Math_min_Qmin a b : (Math_min a b == Qmin a b)%Q.
Proof.
  unfold Math_min. destruct (Qle_bool a b) eqn:E.
  - apply Qle_bool_iff in E. symmetry. now apply Q.min_l.
  - assert (Hlt : (b < a)%Q).
    { apply Qnot_le_lt. intros H. apply Qle_bool_iff in H. congruence. }
    symmetry. apply Q.min_r. now apply Qlt_le_weak.
Qed.

Lemma Math_max_Qmax a b : (Math_max a b == Qmax a b)%Q.
Proof.
  unfold Math_max. destruct (Qle_bool a b) eqn:E.
  - apply Qle_bool_iff in E. symmetry. now apply Q.max_r.
  - assert (Hlt : (b < a)%Q).
    { apply Qnot_le_lt. intros H. apply Qle_bool_iff in H. congruence. }
    symmetry. apply Q.max_l. now apply Qlt_le_weak.
Qed.

Lemma clamp_below v : (v < 0)%Q -> Math_max 0 (Math_min 1 v) = 0%Q.
Proof.
  intros Hv. unfold Math_max, Math_min.
  destruct (Qle_bool 1 v) eqn:E1.
  - apply Qle_bool_iff in E1. exfalso.
    apply (Qlt_irrefl 0). apply Qle_lt_trans with v; [|exact Hv].
    apply Qle_trans with 1%Q; [easy|exact E1].
  - destruct (Qle_bool 0 v) eqn:E0; [|reflexivity].
    apply Qle_bool_iff in E0. exfalso.
    apply (Qlt_irrefl 0). now apply Qle_lt_trans with v.
Qed.

Lemma clamp_above v : (1 < v)%Q -> Math_max 0 (Math_min 1 v) = 1%Q.
Proof.
  intros Hv. unfold Math_max, Math_min.
  destruct (Qle_bool 1 v) eqn:E1; [reflexivity|].
  exfalso. apply Qlt_le_weak, Qle_bool_iff in Hv. congruence.
Qed.

Lemma clamp_inside v :
  (0 <= v)%Q -> (v <= 1)%Q -> (Math_max 0 (Math_min 1 v) == v)%Q.
Proof.
  intros H0 H1. rewrite Math_max_Qmax, Math_min_Qmin.
  rewrite Q.min_r by exact H1. now apply Q.max_r.
Qed.

Lemma clamp_range v :
  (0 <= Math_max 0 (Math_min 1 v))%Q /\ (Math_max 0 (Math_min 1 v) <= 1)%Q.
Proof.
  rewrite Math_max_Qmax, Math_min_Qmin. split.
  - apply Q.le_max_l.
  - apply Q.max_lub; [easy | apply Q.le_min_l].
Qed.

(** C9: for every finite [v], after [setVolume(v)] the stored volume is
    [max(0, min(1, v))], the same value is written to the audio element,
    a [v] below 0 is stored as 0 and a [v] above 1 as 1, and the stored
    volume always lies in [[0, 1]]. *)
Theorem C9_setVolume_clamps (v : Q) (p : AudioPlayer) :
  let p' := setVolume v p in
  (volume p' == Qmax 0 (Qmin 1 v))%Q /\
  getVolume p' = volume p' /\
  audio_volume (audio p') = volume p' /\
  ((v < 0)%Q -> volume p' = 0%Q) /\
  ((1 < v)%Q -> volume p' = 1%Q) /\
  ((0 <= v)%Q -> (v <= 1)%Q -> (volume p' == v)%Q) /\
  (0 <= volume p')%Q /\ (volume p' <= 1)%Q.
Proof.
  simpl. split; [|repeat split].
  - now rewrite Math_max_Qmax, Math_min_Qmin.
  - apply clamp_below.
  - apply clamp_above.
  - apply clamp_inside.
  - apply clamp_range.
  - apply clamp_range.
Qed.

Lemma C9_setVolume_clamps_witness :
  volume (setVolume (-(1 # 2)) (constructor element0)) = 0%Q /\
  volume (setVolume (3 # 2) (constructor element0)) = 1%Q /\
  (volume (setVolume (1 # 4) (constructor element0)) == 1 # 4)%Q.
Proof.
  pose proof (C9_setVolume_clamps (-(1 # 2)) (constructor element0))
    as (_ & _ & _ & Hlow & _).
  pose proof (C9_setVolume_clamps (3 # 2) (constructor element0))
    as (_ & _ & _ & _ & Hhigh & _).
  pose proof (C9_setVolume_clamps (1 # 4) (constructor element0))
    as (_ & _ & _ & _ & _ & Hin & _).
  split; [apply Hlow; reflexivity|].
  split; [apply Hhigh; reflexivity|].
  apply Hin; unfold Qle; simpl; lia.
Defined.

(** ** [previous] and [next] *)

Lemma Qgtb_true a b : Qgtb a b = true <-> (b < a)%Q.
Proof.
  unfold Qgtb. rewrite negb_true_iff. split.
  - intros E. apply Qnot_le_lt. intros H. apply Qle_bool_iff in H. congruence.
  - intros H. destruct (Qle_bool a b) eqn:E; [|reflexivity].
    apply Qle_bool_iff in E. exfalso.
    apply (Qlt_irrefl b). now apply Qlt_le_trans with a.
Qed.

Lemma Qgtb_false a b : Qgtb a b = false <-> (a <= b)%Q.
Proof.
  unfold Qgtb. rewrite negb_false_iff. apply Qle_bool_iff.
Qed.

(** C7: [previous()] with the playback position above 3 seconds sets the
    position of the current track to 0 and leaves [currentIndex] as it
    is; otherwise, when [hasPrevious()] (that is [currentIndex > 0]), it
    is [playIndex(currentIndex - 1)], which moves to the prior index; and
    otherwise it does nothing. *)
Theorem C7_previous (p : AudioPlayer) :
  ((3 < currentTime (audio p))%Q ->
     previous p = audio_set_currentTime 0 p /\
     currentTime (audio (previous p)) = 0%Q /\
     currentIndex (previous p) = currentIndex p /\
     src (audio (previous p)) = src (audio p) /\
     pending (previous p) = pending p /\
     log (previous p) = log p ++ [AudioCurrentTime 0]) /\
  ((currentTime (audio p) <= 3)%Q -> hasPrevious p = true ->
     previous p = playIndex (currentIndex p - 1) p) /\
  ((currentTime (audio p) <= 3)%Q -> hasPrevious p = false ->
     previous p = p) /\
  (hasPrevious p = true <-> 0 < currentIndex p) /\
  (Invariant p -> (currentTime (audio p) <= 3)%Q -> hasPrevious p = true ->
     currentIndex (previous p) = currentIndex p - 1).
Proof.
  assert (Hprev : forall q, hasPrevious q = true <-> 0 < currentIndex q).
  { intros q. unfold hasPrevious. apply Z.ltb_lt. }
  split; [|split; [|split; [|split]]].
  - intros Ht. apply Qgtb_true in Ht. unfold previous. rewrite Ht.
    repeat split.
  - intros Ht Hp. apply Qgtb_false in Ht. unfold previous.
    now rewrite Ht, Hp.
  - intros Ht Hp. apply Qgtb_false in Ht. unfold previous.
    now rewrite Ht, Hp.
  - apply Hprev.
  - intros [_ Hidx] Ht Hp. pose proof Hp as Hpos. apply Hprev in Hpos.
    apply Qgtb_false in Ht. unfold previous. rewrite Ht, Hp.
    apply playIndex_currentIndex. unfold valid_index.
    unfold index_in_range in Hidx. lia.
Qed.

Lemma C7_previous_witness :
  let p := playIndex 1 (setQueue rnd_half [trackA; trackB] (constructor element0)) in
  let late := step (OpElement 5 (Some 200%Q)) p in
  let early := step (OpElement 1 (Some 200%Q)) p in
  (currentTime (audio (previous late)) = 0%Q /\
   currentIndex (previous late) = 1) /\
  currentIndex (previous early) = 0 /\
  previous (previous early) = previous early.
Proof.
  intros p late early.
  destruct (C7_previous late) as (Hlate & _).
  destruct (C7_previous early) as (_ & _ & _ & _ & Hearly).
  destruct (C7_previous (previous early)) as (_ & _ & Hnone & _).
  split; [|split].
  - destruct Hlate as (_ & H1 & H2 & _); [reflexivity|].
    split; [exact H1 | exact H2].
  - apply Hearly; [|unfold Qle; simpl; lia | reflexivity].
    apply step_Invariant, playIndex_Invariant, setQueue_Invariant.
  - apply Hnone; [unfold Qle; simpl; lia | reflexivity].
Defined.

(** C10: when no track is selected ([currentIndex] is [-1]) and the
    active ordering is not empty, [hasNext()] is true and [next()] is not
    a no-op: it is [playIndex(0)], which selects the track at index 0 of
    the active ordering and, when that track has a stream URL, loads it
    into the audio element and starts it (after resuming a suspended
    audio context). *)
Theorem C10_next_from_none (p : AudioPlayer) :
  currentIndex p = -1 -> getQueue p <> [] ->
  hasNext p = true /\
  next p = playIndex 0 p /\
  next p <> p /\
  currentIndex (next p) = 0 /\
  exists track,
    getQueue p !! 0%nat = Some track /\
    getCurrentTrack (next p) = Some track /\
    forall url, truthy_url (streamUrl track) = Some url ->
      src (audio (next p)) = url /\
      log (next p) =
        log p ++ [AudioSrc url;
                  if context_suspended p then ContextResume else AudioPlay] /\
      pending (next p) =
        pending p ++ [if context_suspended p then PlayIndex_resume track
                      else PlayIndex_play track].
Proof.
  intros Hnone Hne.
  destruct (getQueue p) as [|track rest] eqn:Hq; [congruence|].
  assert (Hv : valid_index 0 p).
  { unfold valid_index. rewrite Hq. simpl. lia. }
  assert (Hn : hasNext p = true).
  { unfold hasNext. rewrite Hnone, Hq. simpl. apply Z.ltb_lt. lia. }
  assert (Heq : next p = playIndex 0 p).
  { unfold next. now rewrite Hn, Hnone. }
  pose proof (playIndex_currentIndex 0 p Hv) as Hci.
  rewrite Heq. repeat split; try assumption.
  - intros Hp. rewrite Hp in Hci. congruence.
  - exists track. split; [reflexivity|]. split.
    + unfold getCurrentTrack. rewrite playIndex_getQueue, Hci, Hq. reflexivity.
    + intros url Hurl. unfold playIndex. rewrite Hq. simpl.
      rewrite Hurl.
      change (context_suspended (audio_set_src url (set_currentIndex 0 p)))
        with (context_suspended p).
      destruct (context_suspended p); repeat split; simpl;
        now rewrite <- app_assoc.
Qed.

Lemma C10_next_from_none_witness :
  let p := setQueue rnd_zero [trackA; trackB] (constructor element0) in
  hasNext p = true /\
  currentIndex (next p) = 0 /\
  log (next p) = [AudioSrc "http://host/a"; AudioPlay].
Proof.
  intros p.
  destruct (C10_next_from_none p) as (H1 & _ & _ & H2 & track & Ht & _ & Hlog);
    [reflexivity | discriminate |].
  split; [exact H1|]. split; [exact H2|].
  injection Ht as <-.
  destruct (Hlog "http://host/a" eq_refl) as (_ & Hl & _). exact Hl.
Defined.

(** ** Errors *)

(** C8: when the audio element reports a playback error - the promise of
    [audio.play()] awaited by [playIndex] is rejected, or the element
    emits an [error] event - the error is passed to the [onError] slot
    with its detail, and nothing else happens: the queue, both orderings,
    [currentIndex] and the shuffle flag are as before, the element's
    properties are untouched, no call is left suspended and the trace
    gains no command to the element (no retry, no advance). *)
Theorem C8_errors_do_not_advance (e : ErrorDetail) (p : AudioPlayer) :
  let reported :=
    match onError (slots p) with
    | Some h => [Callback h (Error e)]
    | None => []
    end in
  (forall n track,
     pending p !! n = Some (PlayIndex_play track) ->
     let p' := settle n (Rejected e) p in
     selection p' = selection p /\
     audio p' = audio p /\
     pending p' = delete n (pending p) /\
     log p' = log p ++ ConsoleError e :: reported) /\
  (let p' := dispatch (EvError e) p in
   selection p' = selection p /\
   audio p' = audio p /\
   pending p' = pending p /\
   log p' = log p ++ ConsoleError e :: reported).
Proof.
  simpl. split.
  - intros n track Hn. unfold settle. rewrite Hn. simpl.
    unfold fire. simpl.
    destruct (onError (slots p)); simpl; repeat split;
      now rewrite <- app_assoc.
  - unfold fire. simpl.
    destruct (onError (slots p)); simpl; repeat split;
      now rewrite <- app_assoc.
Qed.

Lemma C8_errors_do_not_advance_witness :
  let p := playIndex 0
             (setQueue rnd_zero [trackA; trackB]
                (set_slots (mkSlots None None None None (Some 7%nat))
                   (constructor element0))) in
  let p' := settle 0 (Rejected "NotSupportedError") p in
  currentIndex p' = 0 /\
  queue p' = [trackA; trackB] /\
  pending p' = [] /\
  log p' = [AudioSrc "http://host/a"; AudioPlay;
            ConsoleError "NotSupportedError";
            Callback 7%nat (Error "NotSupportedError")].
Proof.
  intros p p'.
  destruct (C8_errors_do_not_advance "NotSupportedError" p) as [Hsettle _].
  destruct (Hsettle 0%nat trackA eq_refl) as (Hsel & _ & Hpend & Hlog).
  fold p' in Hsel, Hpend, Hlog.
  split; [|split; [|split]].
  - change (currentIndex p') with (snd (fst (selection p'))).
    rewrite Hsel. reflexivity.
  - change (queue p') with (fst (fst (fst (selection p')))).
    rewrite Hsel. reflexivity.
  - rewrite Hpend. reflexivity.
  - rewrite Hlog. reflexivity.
Defined.

(** ** The index invariant *)

(** C5: after every operation of the transport and queue interface -
    [setQueue], [addToQueue], [clearQueue], [playIndex], [play], [next],
    [previous], [toggleShuffle], [setRepeat], the ended transition and all
    the others, with any draws and with the promises fulfilled or
    rejected - either no track is selected or [currentIndex] is an index
    of the active ordering. It holds in every state a session reaches
    from a new player, and each single operation keeps it. *)
Theorem C5_index_in_range (a : Audio) (ops : list Op) :
  (let p := run ops (constructor a) in
   currentIndex p <> -1 ->
   0 <= currentIndex p < Z.of_nat (length (getQueue p))) /\
  (forall o p, Invariant p ->
     currentIndex (step o p) <> -1 ->
     0 <= currentIndex (step o p) < Z.of_nat (length (getQueue (step o p)))).
Proof.
  split.
  - simpl. apply (run_Invariant ops (constructor a)).
    apply Invariant_constructor.
  - intros o p H. apply (step_Invariant o p H).
Qed.

Lemma C5_index_in_range_witness :
  let ops := [OpSetQueue rnd_half [trackA; trackB; trackC];
              OpPlayIndex 1;
              OpSettle 0 (Rejected "NetworkError");
              OpToggleShuffle rnd_zero;
              OpNext;
              OpAddToQueue rnd_half [trackA];
              OpSetRepeat "all";
              OpDispatch EvEnded;
              OpPrevious] in
  let p := run ops (constructor element0) in
  currentIndex p = 1 /\
  0 <= currentIndex p < Z.of_nat (length (getQueue p)).
Proof.
  intros ops p.
  destruct (C5_index_in_range element0 ops) as [Hrun _].
  assert (Hci : currentIndex p = 1) by (vm_compute; reflexivity).
  split; [exact Hci|].
  apply Hrun. fold p. rewrite Hci. lia.
Defined.

(** ** The ended transition *)

Lemma playIndex_log i p : exists rest, log (playIndex i p) = log p ++ rest.
Proof.
  unfold playIndex. destruct (_ || _); [exists []; now rewrite app_nil_r|].
  simpl. destruct (getQueue p !! Z.to_nat i) as [track|];
    [|exists []; now rewrite app_nil_r].
  destruct (truthy_url (streamUrl track)) as [url|];
    [|exists []; now rewrite app_nil_r].
  destruct (context_suspended _); simpl;
    eexists; now rewrite <- app_assoc.
Qed.

Lemma play_log p : exists rest, log (play p) = log p ++ rest.
Proof.
  unfold play. destruct (_ && _); [apply playIndex_log|].
  destruct (context_suspended p); simpl; eexists; reflexivity.
Qed.

Lemma Invariant_lower_bound p : Invariant p -> -1 <= currentIndex p.
Proof.
  intros [_ H]. unfold index_in_range in H.
  destruct (decide (currentIndex p = -1)); [lia|].
  specialize (H ltac:(assumption)). lia.
Qed.

(** The player once the ended notification has been delivered: only
    the trace has grown. *)
Lemma fire_onEnded p :
  fire (onEnded (slots p)) Ended p =
  mkPlayer (audio p) (queue p) (currentIndex p) (isPlaying p) (volume p)
    (repeat p) (shuffle p) (shuffledQueue p) (audioContext p) (slots p)
    (pending p)
    (log p ++ match onEnded (slots p) with
              | Some h => [Callback h Ended]
              | None => []
              end).
Proof.
  unfold fire. destruct (onEnded (slots p)); [reflexivity|].
  rewrite app_nil_r. now destruct p.
Qed.

(** C4: the ended transition. The ended notification is delivered first.
    Then, with repeat mode [one], the position is set to 0 and [play()]
    runs: when a track is selected (or the queue is empty) the loaded
    track is resumed and [currentIndex] is unchanged, and when no track
    is selected and the queue is not empty [play()] hands over to
    [playIndex(0)], so [currentIndex] becomes 0. Otherwise, if
    [hasNext()], it is [playIndex(currentIndex + 1)]; otherwise, with
    repeat mode [all] and a non-empty queue, it is [playIndex(0)] and
    [currentIndex] becomes 0; otherwise nothing more happens and
    [currentIndex] stays at the last position. *)
Theorem C4_handleEnded_order (p : AudioPlayer) :
  Invariant p ->
  let p1 := fire (onEnded (slots p)) Ended p in
  let idx := currentIndex p in
  (log p1 = log p ++ match onEnded (slots p) with
                     | Some h => [Callback h Ended]
                     | None => []
                     end /\
   exists rest, log (_handleEnded p) = log p1 ++ rest) /\
  (repeat p = "one" ->
     (idx <> -1 \/ queue p = [] ->
        currentIndex (_handleEnded p) = idx /\
        currentTime (audio (_handleEnded p)) = 0%Q /\
        src (audio (_handleEnded p)) = src (audio p) /\
        log (_handleEnded p) =
          log p1 ++ [AudioCurrentTime 0;
                     if context_suspended p then ContextResume
                     else AudioPlay]) /\
     (idx = -1 -> queue p <> [] ->
        _handleEnded p = playIndex 0 (audio_set_currentTime 0 p1) /\
        currentIndex (_handleEnded p) = 0)) /\
  (repeat p <> "one" -> hasNext p = true ->
     _handleEnded p = playIndex (idx + 1) p1 /\
     currentIndex (_handleEnded p) = idx + 1) /\
  (repeat p <> "one" -> hasNext p = false ->
   repeat p = "all" -> queue p <> [] ->
     _handleEnded p = playIndex 0 p1 /\
     currentIndex (_handleEnded p) = 0) /\
  (repeat p <> "one" -> hasNext p = false ->
   repeat p <> "all" \/ queue p = [] ->
     _handleEnded p = p1 /\
     currentIndex (_handleEnded p) = idx /\
     idx = Z.of_nat (length (getQueue p)) - 1).
Proof.
  intros Hinv p1 idx.
  pose proof (Invariant_lower_bound p Hinv) as Hlow.
  pose proof (Invariant_length p Hinv) as Hlen.
  pose proof (fire_onEnded p) as Hp1. fold p1 in Hp1.
  assert (Hsel : selection p1 = selection p) by apply selection_fire.
  assert (Hq1 : getQueue p1 = getQueue p) by now apply selection_getQueue.
  assert (Hrep : repeat p1 = repeat p) by now rewrite Hp1.
  assert (Hci : currentIndex p1 = idx) by now rewrite Hp1.
  assert (Hqu : queue p1 = queue p) by now rewrite Hp1.
  assert (Hnext : hasNext p1 = hasNext p).
  { unfold hasNext. now rewrite Hq1, Hci. }
  assert (Hunf : _handleEnded p =
    if String.eqb (repeat p) "one" then play (audio_set_currentTime 0 p1)
    else if hasNext p then next p1
    else if String.eqb (repeat p) "all" && (0 <? Z.of_nat (length (queue p)))
    then playIndex 0 p1 else p1).
  { unfold _handleEnded. fold p1. now rewrite Hrep, Hnext, Hqu. }
  split; [|split; [|split; [|split]]].
  - split; [now rewrite Hp1|].
    rewrite Hunf. destruct (String.eqb _ "one").
    + destruct (play_log (audio_set_currentTime 0 p1)) as [rest Hr].
      rewrite Hr. simpl. rewrite <- app_assoc. eexists; reflexivity.
    + destruct (hasNext p).
      * unfold next. destruct (hasNext p1);
          [apply playIndex_log | exists []; now rewrite app_nil_r].
      * destruct (_ && _);
          [apply playIndex_log | exists []; now rewrite app_nil_r].
  - intros Hone. apply String.eqb_eq in Hone. rewrite Hunf, Hone.
    unfold play.
    change (currentIndex (audio_set_currentTime 0 p1)) with (currentIndex p1).
    change (queue (audio_set_currentTime 0 p1)) with (queue p1).
    rewrite Hci, Hqu. split.
    + intros Hsel0.
      assert (Hc : (idx <? 0) && (0 <? Z.of_nat (length (queue p))) = false).
      { destruct Hsel0 as [Hne | Hnil].
        - apply andb_false_intro1, Z.ltb_ge. fold idx in Hlow. lia.
        - rewrite Hnil. apply andb_false_intro2. reflexivity. }
      rewrite Hc.
      change (context_suspended (audio_set_currentTime 0 p1))
        with (context_suspended p1).
      assert (Hcs : context_suspended p1 = context_suspended p)
        by now rewrite Hp1.
      rewrite Hcs.
      destruct (context_suspended p); simpl; rewrite Hp1; simpl;
        repeat split; now rewrite <- app_assoc.
    + intros Hnone Hne.
      assert (Hc : (idx <? 0) && (0 <? Z.of_nat (length (queue p))) = true).
      { apply andb_true_intro. split; [apply Z.ltb_lt; lia|].
        apply Z.ltb_lt. destruct (queue p); [congruence | simpl; lia]. }
      rewrite Hc. split; [reflexivity|].
      apply playIndex_currentIndex. unfold valid_index.
      change (getQueue (audio_set_currentTime 0 p1)) with (getQueue p1).
      rewrite Hq1, Hlen. destruct (queue p); [congruence | simpl; lia].
  - intros Hone Hn. apply String.eqb_neq in Hone. rewrite Hunf, Hone, Hn.
    unfold next. rewrite Hnext, Hn, Hci. split; [reflexivity|].
    apply playIndex_currentIndex. unfold valid_index. rewrite Hq1.
    unfold hasNext in Hn. apply Z.ltb_lt in Hn. fold idx in Hn, Hlow. lia.
  - intros Hone Hn Hall Hne. apply String.eqb_neq in Hone.
    apply String.eqb_eq in Hall. rewrite Hunf, Hone, Hn, Hall.
    assert (Hpos : (0 <? Z.of_nat (length (queue p))) = true).
    { apply Z.ltb_lt. destruct (queue p); [congruence | simpl; lia]. }
    rewrite Hpos. simpl. split; [reflexivity|].
    apply playIndex_currentIndex. unfold valid_index. rewrite Hq1, Hlen.
    apply Z.ltb_lt in Hpos. lia.
  - intros Hone Hn Hoff. apply String.eqb_neq in Hone.
    rewrite Hunf, Hone, Hn.
    assert (Hc : (String.eqb (repeat p) "all" &&
                  (0 <? Z.of_nat (length (queue p)))) = false).
    { destruct Hoff as [Hna | Hnil].
      - apply andb_false_intro1. now apply String.eqb_neq.
      - rewrite Hnil. apply andb_false_intro2. reflexivity. }
    rewrite Hc. split; [reflexivity|]. split; [exact Hci|].
    unfold hasNext in Hn. apply Z.ltb_ge in Hn. fold idx in Hn, Hlow.
    destruct Hinv as [_ Hidx]. unfold index_in_range in Hidx. fold idx in Hidx.
    destruct (decide (idx = -1)) as [Hm|Hm]; [lia|].
    specialize (Hidx Hm). lia.
Qed.

Lemma C4_handleEnded_order_witness :
  let q := setQueue rnd_half [trackA; trackB] (constructor element0) in
  let last_all := playIndex 1 (setRepeat "all" q) in
  let last_off := playIndex 1 q in
  let first_off := playIndex 0 q in
  let last_one := playIndex 1 (setRepeat "one" q) in
  currentIndex (_handleEnded last_all) = 0 /\
  currentIndex (_handleEnded last_off) = 1 /\
  currentIndex (_handleEnded first_off) = 1 /\
  (currentIndex (_handleEnded last_one) = 1 /\
   currentTime (audio (_handleEnded last_one)) = 0%Q).
Proof.
  intros q last_all last_off first_off last_one.
  assert (Hq : Invariant q) by apply setQueue_Invariant.
  assert (Hqa : Invariant (setRepeat "all" q))
    by exact (selection_Invariant q _ eq_refl Hq).
  assert (Hqo : Invariant (setRepeat "one" q))
    by exact (selection_Invariant q _ eq_refl Hq).
  destruct (C4_handleEnded_order last_all (playIndex_Invariant 1 _ Hqa))
    as (_ & _ & _ & Hall & _).
  destruct (C4_handleEnded_order last_off (playIndex_Invariant 1 _ Hq))
    as (_ & _ & _ & _ & Hoff).
  destruct (C4_handleEnded_order first_off (playIndex_Invariant 0 _ Hq))
    as (_ & _ & Hnext & _).
  destruct (C4_handleEnded_order last_one (playIndex_Invariant 1 _ Hqo))
    as (_ & Hone & _).
  split; [|split; [|split]].
  - apply Hall; vm_compute; (reflexivity || discriminate).
  - apply Hoff; [vm_compute; discriminate | reflexivity |].
    left. vm_compute. discriminate.
  - apply Hnext; [vm_compute; discriminate | reflexivity].
  - destruct Hone as [Hsel _]; [reflexivity|].
    destruct Hsel as (H1 & H2 & _); [left; vm_compute; discriminate|].
    split; [exact H1 | exact H2].
Defined.

(** C4 as first stated (repeat mode [one] never changes [currentIndex])
    fails: with repeat mode [one], no track selected and a non-empty queue,
    the ended transition changes [currentIndex] and loads another track: a
    track of the first album is playing when a second album is put in the
    queue, and at its end the first track of the second album starts. *)
Lemma C4_repeat_one_selects_first :
  let p := run [OpSetRepeat "one";
                OpSetQueue rnd_zero [trackA];
                OpPlayIndex 0;
                OpSetQueue rnd_zero [trackB; trackC]]
             (constructor element0) in
  repeat p = "one" /\
  currentIndex p = -1 /\
  src (audio p) = "http://host/a" /\
  currentIndex (_handleEnded p) <> currentIndex p /\
  currentIndex (_handleEnded p) = 0 /\
  src (audio (_handleEnded p)) = "http://host/b".
Proof.
  vm_compute. repeat split; discriminate.
Qed.

(** ** Shuffle on and off *)

Lemma toggleShuffle_queue rnd p : queue (toggleShuffle rnd p) = queue p.
Proof.
  unfold toggleShuffle. destruct (shuffle p); simpl;
    destruct (getCurrentTrack _); try reflexivity.
  destruct (0 <? _); reflexivity.
Qed.

Lemma toggleShuffle_shuffle rnd p :
  shuffle (toggleShuffle rnd p) = negb (shuffle p).
Proof.
  unfold toggleShuffle. destruct (shuffle p); simpl;
    destruct (getCurrentTrack _); try reflexivity.
  destruct (0 <? _); reflexivity.
Qed.

Lemma same_id_refl t : same_id t t = true.
Proof. apply String.eqb_refl. Qed.

Lemma same_id_eq current t : same_id current t = true -> id t = id current.
Proof. apply String.eqb_eq. Qed.

(** Turning shuffle on reads the current track after the flag has been
    flipped, that is from the shuffled ordering as it was left by the last
    [setQueue], [addToQueue] or [toggleShuffle]: the track selected
    afterwards, at index 0, has the id of the track [old] found there at
    [currentIndex], which need not be the track that was selected. *)
Lemma toggleShuffle_on_selected rnd p old :
  Invariant p -> shuffle p = false ->
  valid_index (currentIndex p) p ->
  shuffledQueue p !! Z.to_nat (currentIndex p) = Some old ->
  currentIndex (toggleShuffle rnd p) = 0 /\
  exists t, getCurrentTrack (toggleShuffle rnd p) = Some t /\ id t = id old.
Proof.
  intros [Hperm _] Hsh Hv Hold.
  unfold valid_index, getQueue in Hv. rewrite Hsh in Hv.
  pose proof (Permutation_length Hperm) as Hlen.
  unfold toggleShuffle. rewrite Hsh. simpl.
  assert (Hcur : getCurrentTrack (set_shuffle true p) = Some old).
  { unfold getCurrentTrack, getQueue. simpl.
    destruct (0 <=? currentIndex p) eqn:E1; [|lia].
    destruct (currentIndex p <? _) eqn:E2; [exact Hold|lia]. }
  rewrite Hcur.
  set (sq := _shuffleArray rnd (queue p)).
  assert (Hsq : sq ≡ₚ queue p) by apply _shuffleArray_Permutation.
  assert (Hin : old ∈ sq).
  { rewrite Hsq, <- Hperm. now apply list_elem_of_lookup_2 in Hold. }
  pose proof (findIndex_found (same_id old) sq old Hin (same_id_refl old))
    as Hrange.
  destruct (findIndex_lookup (same_id old) sq) as (t & Ht & Hid); [lia|].
  split.
  - destruct (0 <? _); reflexivity.
  - exists t. split; [|now apply same_id_eq].
    unfold getCurrentTrack, getQueue.
    destruct (0 <? findIndex (same_id old) sq) eqn:Hpos; simpl.
    + rewrite swap_length.
      destruct (0 <? Z.of_nat (length sq)) eqn:E; [|lia].
      apply swap_lookup_l; [lia | exact Ht].
    + destruct (0 <? Z.of_nat (length sq)) eqn:E; [|lia].
      assert (H0 : findIndex (same_id old) sq = 0) by lia.
      now rewrite H0 in Ht.
Qed.

(** Turning shuffle on and then off always ends at index 0 of the
    canonical ordering when a track was selected. *)
Lemma toggleShuffle_twice rnd1 rnd2 p :
  Invariant p -> shuffle p = false ->
  valid_index (currentIndex p) p ->
  let p' := toggleShuffle rnd2 (toggleShuffle rnd1 p) in
  shuffle p' = false /\ queue p' = queue p /\ currentIndex p' = 0.
Proof.
  intros Hinv Hsh Hv. simpl.
  pose proof Hinv as [Hperm _].
  pose proof Hv as Hv'. unfold valid_index, getQueue in Hv'.
  rewrite Hsh in Hv'.
  assert (Hold : is_Some (shuffledQueue p !! Z.to_nat (currentIndex p))).
  { apply lookup_lt_is_Some_2. apply Permutation_length in Hperm. lia. }
  destruct Hold as [old Hold].
  destruct (toggleShuffle_on_selected rnd1 p old Hinv Hsh Hv Hold)
    as [Hci _].
  set (p1 := toggleShuffle rnd1 p) in *.
  assert (Hq1 : queue p1 = queue p) by apply toggleShuffle_queue.
  assert (Hs1 : shuffle p1 = true).
  { unfold p1. now rewrite toggleShuffle_shuffle, Hsh. }
  split; [now rewrite toggleShuffle_shuffle, Hs1|].
  split; [now rewrite toggleShuffle_queue|].
  unfold toggleShuffle. rewrite Hs1. simpl.
  unfold getCurrentTrack, getQueue. simpl. rewrite Hci, Hq1.
  destruct (queue p) as [|q0 rest] eqn:Hq; [simpl in Hv'; lia|].
  simpl. unfold findIndex. simpl. now rewrite same_id_refl.
Qed.

(** A two-element array is shuffled to itself or to its reverse. *)
Lemma _shuffleArray_two {A : Type} rnd (x y : A) :
  _shuffleArray rnd [x; y] = [x; y] \/ _shuffleArray rnd [x; y] = [y; x].
Proof.
  unfold _shuffleArray. simpl.
  pose proof (random_index_le (rnd 0%nat) 1) as Hle.
  destruct (random_index (rnd 0%nat) 1) as [|[|n]]; [right|left|lia];
    reflexivity.
Qed.

(** C1: the claim is that turning shuffle on keeps the selected track, at
    index 0 of the new ordering. Here the queue is [[A, B]], its shuffled
    ordering was left as [[B, A]] by [setQueue], and A is selected at
    canonical index 0. Whatever is drawn, turning shuffle on selects B:
    index 0 of the new ordering holds B, not A. *)
Theorem C1_enable_shuffle_selects_other_track (rnd : RandomSource) :
  let p := playIndex 0
             (setQueue rnd_zero [trackA; trackB] (constructor element0)) in
  let p' := toggleShuffle rnd p in
  shuffle p = false /\
  getCurrentTrack p = Some trackA /\
  shuffle p' = true /\
  currentIndex p' = 0 /\
  getQueue p' !! 0%nat = Some trackB /\
  getCurrentTrack p' = Some trackB.
Proof.
  intros p p'.
  assert (Hinv : Invariant p)
    by apply playIndex_Invariant, setQueue_Invariant.
  assert (Hsh : shuffle p = false) by (vm_compute; reflexivity).
  assert (Hq : queue p = [trackA; trackB]) by (vm_compute; reflexivity).
  assert (Hv : valid_index (currentIndex p) p).
  { unfold valid_index. vm_compute. split; [discriminate | reflexivity]. }
  assert (Hold : shuffledQueue p !! Z.to_nat (currentIndex p) = Some trackB)
    by (vm_compute; reflexivity).
  destruct (toggleShuffle_on_selected rnd p trackB Hinv Hsh Hv Hold)
    as (Hci & t & Hcur & Hid).
  fold p' in Hci, Hcur.
  assert (Hs' : shuffle p' = true).
  { unfold p'. now rewrite toggleShuffle_shuffle, Hsh. }
  assert (Ht : t = trackB).
  { pose proof (toggleShuffle_Invariant rnd p Hinv) as [Hperm _].
    fold p' in Hperm.
    apply getCurrentTrack_Some in Hcur as [_ Hlook].
    apply list_elem_of_lookup_2 in Hlook.
    unfold getQueue in Hlook. rewrite Hs' in Hlook.
    rewrite Hperm in Hlook. unfold p' in Hlook.
    rewrite toggleShuffle_queue, Hq in Hlook.
    apply elem_of_cons in Hlook as [->|Hlook]; [discriminate Hid|].
    apply elem_of_cons in Hlook as [->|Hlook]; [reflexivity|].
    inversion Hlook. }
  subst t.
  split; [exact Hsh|].
  split; [vm_compute; reflexivity|].
  split; [exact Hs'|]. split; [exact Hci|].
  split; [|exact Hcur].
  apply getCurrentTrack_Some in Hcur as [_ Hlook].
  now rewrite Hci in Hlook.
Qed.

(** C2: the claim is that turning shuffle on and then off, with the
    queue untouched, leads back to the track that was selected. Here the
    queue is [[A, B]] and B is selected at index 1. Whatever is drawn by
    [setQueue] and by the two calls of [toggleShuffle], index 0 and so
    track A is selected afterwards. *)
Theorem C2_toggle_twice_selects_first (rnd0 rnd1 rnd2 : RandomSource) :
  let p := playIndex 1
             (setQueue rnd0 [trackA; trackB] (constructor element0)) in
  let p' := toggleShuffle rnd2 (toggleShuffle rnd1 p) in
  shuffle p = false /\
  getCurrentTrack p = Some trackB /\
  shuffle p' = false /\
  queue p' = queue p /\
  currentIndex p' = 0 /\
  getCurrentTrack p' = Some trackA.
Proof.
  intros p p'.
  assert (Hinv : Invariant p)
    by apply playIndex_Invariant, setQueue_Invariant.
  assert (Hsh : shuffle p = false) by reflexivity.
  assert (Hv : valid_index (currentIndex p) p).
  { unfold valid_index. simpl. lia. }
  destruct (toggleShuffle_twice rnd1 rnd2 p Hinv Hsh Hv) as (H1 & H2 & H3).
  fold p' in H1, H2, H3.
  split; [exact Hsh|]. split; [reflexivity|].
  split; [exact H1|]. split; [exact H2|]. split; [exact H3|].
  unfold getCurrentTrack, getQueue. rewrite H1, H2, H3. reflexivity.
Qed.

(** * Further properties of the player *)

(** ** What each method leaves alone *)

Lemma modes_playIndex i p : modes (playIndex i p) = modes p.
Proof.
  unfold playIndex. destruct (_ || _); [reflexivity|]. simpl.
  destruct (getQueue p !! Z.to_nat i) as [track|]; [|reflexivity].
  destruct (truthy_url (streamUrl track)); [|reflexivity].
  destruct (context_suspended _); reflexivity.
Qed.

Lemma modes_play p : modes (play p) = modes p.
Proof.
  unfold play. destruct (_ && _); [apply modes_playIndex|].
  destruct (context_suspended p); reflexivity.
Qed.

Lemma modes_next p : modes (next p) = modes p.
Proof.
  unfold next. destruct (hasNext p); [apply modes_playIndex | reflexivity].
Qed.

Lemma modes_previous p : modes (previous p) = modes p.
Proof.
  unfold previous. destruct (Qgtb _ _); [reflexivity|].
  destruct (hasPrevious p); [apply modes_playIndex | reflexivity].
Qed.

Lemma modes_fire slot n p : modes (fire slot n p) = modes p.
Proof. destruct slot; reflexivity. Qed.

Lemma modes_toggleShuffle rnd p : modes (toggleShuffle rnd p) = modes p.
Proof.
  unfold toggleShuffle. destruct (shuffle p); simpl;
    destruct (getCurrentTrack _); try reflexivity.
  destruct (0 <? _); reflexivity.
Qed.

Lemma modes__handleEnded p : modes (_handleEnded p) = modes p.
Proof.
  unfold _handleEnded.
  set (p1 := fire (onEnded (slots p)) Ended p).
  assert (H1 : modes p1 = modes p) by apply modes_fire.
  destruct (String.eqb _ "one").
  - now rewrite modes_play.
  - destruct (hasNext p1); [now rewrite modes_next|].
    destruct (_ && _); [now rewrite modes_playIndex | exact H1].
Qed.

Lemma modes_continue k o p : modes (continue k o p) = modes p.
Proof.
  destruct k, o; simpl; try reflexivity;
    unfold fire; destruct (_ (slots p)); reflexivity.
Qed.

Lemma modes_settle n o p : modes (settle n o p) = modes p.
Proof.
  unfold settle. destruct (pending p !! n); [|reflexivity].
  now rewrite modes_continue.
Qed.

Lemma outside_toggleShuffle rnd p :
  outside (toggleShuffle rnd p) = outside p.
Proof.
  unfold toggleShuffle. destruct (shuffle p); simpl;
    destruct (getCurrentTrack _); try reflexivity.
  destruct (0 <? _); reflexivity.
Qed.

(** ** Invariants of every session *)

(** X1: in every state a session reaches, the shuffled ordering is a
    permutation of the canonical one, whether shuffle is on or off: the
    two have the same length and the same tracks, and so does the active
    ordering. *)
Theorem X1_reachable_orderings (a : Audio) (ops : list Op) :
  let p := run ops (constructor a) in
  shuffledQueue p ≡ₚ queue p /\
  getQueue p ≡ₚ queue p /\
  length (getQueue p) = length (queue p) /\
  (forall t, t ∈ getQueue p <-> t ∈ queue p).
Proof.
  intros p.
  assert (Hinv : Invariant p)
    by apply run_Invariant, Invariant_constructor.
  destruct Hinv as [Hperm _].
  assert (Hact : getQueue p ≡ₚ queue p).
  { unfold getQueue. destruct (shuffle p); [exact Hperm | reflexivity]. }
  split; [exact Hperm|]. split; [exact Hact|].
  split; [now apply Permutation_length|].
  intros t. now rewrite Hact.
Qed.

Lemma Invariant_current_track p :
  Invariant p ->
  (getCurrentTrack p = None <-> currentIndex p = -1) /\
  (forall t, getCurrentTrack p = Some t -> t ∈ queue p).
Proof.
  intros [Hperm Hidx]. split; [split|].
  - intros Hnone. destruct (decide (currentIndex p = -1)) as [|Hne]; [easy|].
    destruct (getCurrentTrack_valid p (Hidx Hne)) as [t Ht]. congruence.
  - intros Hm. unfold getCurrentTrack. rewrite Hm. reflexivity.
  - intros t Ht. apply getCurrentTrack_Some in Ht as [_ Hl].
    apply list_elem_of_lookup_2 in Hl.
    unfold getQueue in Hl. destruct (shuffle p); [|exact Hl].
    now rewrite <- Hperm.
Qed.

(** X2: in every state a session reaches, [getCurrentTrack()] is [null]
    exactly when [currentIndex] is [-1], and the track it returns
    otherwise is one of the tracks of the canonical queue. *)
Theorem X2_reachable_current_track (a : Audio) (ops : list Op) :
  let p := run ops (constructor a) in
  (getCurrentTrack p = None <-> currentIndex p = -1) /\
  (forall t, getCurrentTrack p = Some t -> t ∈ queue p).
Proof.
  intros p. apply Invariant_current_track.
  apply run_Invariant, Invariant_constructor.
Qed.

Lemma step_modes o p :
  modes (step o p) = modes p \/
  (exists v, o = OpSetVolume v) \/
  (exists mode, o = OpSetRepeat mode) \/
  (exists s, o = OpSlots s) \/
  play_state_event o = true.
Proof.
  destruct o; simpl;
    try (left; reflexivity);
    try (left; first [ apply modes_playIndex | apply modes_play
                     | apply modes_next | apply modes_previous
                     | apply modes_toggleShuffle | apply modes_settle ]).
  - left. unfold togglePlay. destruct (isPlaying p);
      [reflexivity | apply modes_play].
  - left. destruct time; reflexivity.
  - left. unfold seekPercent. destruct (duration _); [|reflexivity].
    destruct (Qeq_bool _ _); reflexivity.
  - right. left. eauto.
  - right. right. left. eauto.
  - left. unfold initAudioContext. destruct (audioContext p); [reflexivity|].
    destruct created; reflexivity.
  - right. right. right. left. eauto.
  - destruct ev; simpl; try (right; right; right; right; reflexivity);
      left; first [ apply modes__handleEnded
                  | rewrite modes_fire; reflexivity ].
  - left. destruct (audioContext p); reflexivity.
Qed.

Lemma volume_step o p :
  (0 <= volume p)%Q /\ (volume p <= 1)%Q ->
  (0 <= volume (step o p))%Q /\ (volume (step o p) <= 1)%Q.
Proof.
  intros Hv.
  destruct (step_modes o p) as [H|[[v ->]|[[m ->]|[[s ->]|H]]]].
  - assert (Hvol : volume (step o p) = volume p).
    { change (volume (step o p)) with (snd (fst (fst (modes (step o p))))).
      now rewrite H. }
    now rewrite Hvol.
  - simpl. apply clamp_range.
  - exact Hv.
  - exact Hv.
  - destruct o; try discriminate. destruct ev; try discriminate;
      simpl; unfold fire; destruct (onPlayStateChange _); exact Hv.
Qed.

Lemma run_volume ops p :
  (0 <= volume p)%Q /\ (volume p <= 1)%Q ->
  (0 <= volume (run ops p))%Q /\ (volume (run ops p) <= 1)%Q.
Proof.
  revert p. induction ops as [|o ops IH]; intros p Hp; [exact Hp|].
  simpl. apply IH. now apply volume_step.
Qed.

Lemma constructor_volume a :
  (0 <= volume (constructor a))%Q /\ (volume (constructor a) <= 1)%Q.
Proof. simpl. split; unfold Qle; simpl; lia. Qed.

(** X3: in every state a session reaches, the stored volume lies in
    [[0, 1]]: it starts at 1 and only [setVolume], which clamps, writes
    it. *)
Theorem X3_reachable_volume (a : Audio) (ops : list Op) :
  let p := run ops (constructor a) in
  (0 <= volume p)%Q /\ (volume p <= 1)%Q.
Proof.
  simpl. apply run_volume, constructor_volume.
Qed.

(** X4: the player never decides by itself that playback has started or
    stopped: [isPlaying] is written only by the listeners of the
    element's [play] and [pause] events, which set it to [true] and to
    [false]; no method, no settled promise and no other event changes
    it. *)
Theorem X4_isPlaying_follows_element (o : Op) (p : AudioPlayer) :
  (play_state_event o = false -> isPlaying (step o p) = isPlaying p) /\
  isPlaying (dispatch EvPlay p) = true /\
  isPlaying (dispatch EvPause p) = false.
Proof.
  split; [|split].
  - intros Hne.
    destruct (step_modes o p) as [H|[[v ->]|[[m ->]|[[s ->]|H]]]];
      try reflexivity; [|congruence].
    change (isPlaying (step o p))
      with (fst (fst (fst (modes (step o p))))).
    now rewrite H.
  - simpl. unfold fire. destruct (onPlayStateChange _); reflexivity.
  - simpl. unfold fire. destruct (onPlayStateChange _); reflexivity.
Qed.

Lemma X4_isPlaying_follows_element_witness :
  let p := setQueue rnd_half [trackA; trackB] (constructor element0) in
  isPlaying (step OpPlay p) = false /\
  isPlaying (step (OpSettle 0 Fulfilled) (step OpPlay p)) = false /\
  isPlaying (step (OpDispatch EvPlay) (step OpPlay p)) = true.
Proof.
  intros p.
  destruct (X4_isPlaying_follows_element OpPlay p) as [H1 _].
  destruct (X4_isPlaying_follows_element (OpSettle 0 Fulfilled)
              (step OpPlay p)) as [H2 [H3 _]].
  split; [|split].
  - rewrite H1; reflexivity.
  - rewrite H2, H1; reflexivity.
  - exact (proj1 (proj2 (X4_isPlaying_follows_element OpPlay
                           (step OpPlay p)))).
Defined.

(** X5: pausing, stopping, seeking, changing the volume, muting, setting
    the repeat mode, creating the audio context, assigning the callback
    slots, settling a suspended call and every event of the element other
    than [ended] leave the queue, both orderings, [currentIndex] and the
    shuffle flag as they are. *)
Theorem X5_selection_frame (o : Op) (p : AudioPlayer) :
  selects o = false -> selection (step o p) = selection p.
Proof.
  intros Hs. destruct o; try discriminate; simpl; try reflexivity.
  - destruct time; reflexivity.
  - unfold seekPercent. destruct (duration _); [|reflexivity].
    destruct (Qeq_bool _ _); reflexivity.
  - unfold initAudioContext. destruct (audioContext p); [reflexivity|].
    destruct created; reflexivity.
  - apply selection_settle.
  - destruct ev; try discriminate; simpl;
      rewrite selection_fire; reflexivity.
  - destruct (audioContext p); reflexivity.
Qed.

Lemma X5_selection_frame_witness :
  let p := playIndex 1
             (setQueue rnd_half [trackA; trackB] (constructor element0)) in
  currentIndex (step OpStop p) = 1 /\
  queue (step (OpDispatch (EvError "decode")) p) = [trackA; trackB].
Proof.
  intros p.
  pose proof (X5_selection_frame OpStop p eq_refl) as H1.
  pose proof (X5_selection_frame (OpDispatch (EvError "decode")) p eq_refl)
    as H2.
  split.
  - change (currentIndex (step OpStop p))
      with (snd (fst (selection (step OpStop p)))).
    rewrite H1. reflexivity.
  - change (queue (step (OpDispatch (EvError "decode")) p))
      with (fst (fst (fst (selection
                             (step (OpDispatch (EvError "decode")) p))))).
    rewrite H2. reflexivity.
Defined.

(** X6: changing the queue or the modes never reaches the audio element:
    [setQueue], [addToQueue], [clearQueue], [toggleShuffle] and
    [setRepeat] leave the element's properties, the suspended calls and
    the trace of commands and notifications unchanged, so whatever is
    playing keeps playing. *)
Theorem X6_queue_changes_are_silent (rnd : RandomSource)
  (tracks : list Track) (mode : string) (p : AudioPlayer) :
  outside (setQueue rnd tracks p) = outside p /\
  outside (addToQueue rnd tracks p) = outside p /\
  outside (clearQueue p) = outside p /\
  outside (toggleShuffle rnd p) = outside p /\
  outside (setRepeat mode p) = outside p.
Proof.
  repeat split. apply outside_toggleShuffle.
Qed.

(** ** Queue changes *)

(** X7: [addToQueue(tracks)] appends the tracks to the canonical
    ordering in order, makes the shuffled ordering a permutation of the
    whole, and keeps [currentIndex] and the shuffle flag; while shuffle
    is off the selected track stays the same. Adding no track leaves
    the canonical ordering as it is. *)
Theorem X7_addToQueue_appends (rnd : RandomSource) (tracks : list Track)
  (p : AudioPlayer) :
  let p' := addToQueue rnd tracks p in
  queue p' = queue p ++ tracks /\
  shuffledQueue p' ≡ₚ queue p ++ tracks /\
  currentIndex p' = currentIndex p /\
  shuffle p' = shuffle p /\
  (Invariant p -> shuffle p = false ->
   getCurrentTrack p' = getCurrentTrack p) /\
  queue (addToQueue rnd [] p) = queue p.
Proof.
  simpl. split; [reflexivity|]. split; [apply _shuffleArray_Permutation|].
  split; [reflexivity|]. split; [reflexivity|]. split.
  - intros [_ Hidx] Hsh. unfold index_in_range, getQueue in Hidx.
    unfold getCurrentTrack, getQueue. simpl. rewrite Hsh in *.
    destruct (decide (currentIndex p = -1)) as [Hm|Hne].
    + rewrite Hm. reflexivity.
    + specialize (Hidx Hne). rewrite length_app.
      assert (E1 : (0 <=? currentIndex p) = true) by (apply Z.leb_le; lia).
      assert (E2 : (currentIndex p <? Z.of_nat (length (queue p))) = true)
        by (apply Z.ltb_lt; lia).
      assert (E3 : (currentIndex p
                      <? Z.of_nat (length (queue p) + length tracks)) = true)
        by (apply Z.ltb_lt; lia).
      rewrite E1, E2, E3. simpl. apply lookup_app_l. lia.
  - apply app_nil_r.
Qed.

Lemma X7_addToQueue_appends_witness :
  let p := playIndex 1
             (setQueue rnd_half [trackA; trackB] (constructor element0)) in
  let p' := addToQueue rnd_zero [trackC] p in
  queue p' = [trackA; trackB; trackC] /\
  getCurrentTrack p' = Some trackB.
Proof.
  intros p p'.
  destruct (X7_addToQueue_appends rnd_zero [trackC] p)
    as (Hq & _ & _ & _ & Hcur & _).
  fold p' in Hq, Hcur. split; [rewrite Hq; reflexivity|].
  rewrite Hcur; [reflexivity | | reflexivity].
  apply playIndex_Invariant, setQueue_Invariant.
Defined.

(** X8: after [clearQueue()] the active ordering is empty and no track
    is selected: [getCurrentTrack()] is [null], [hasNext()] and
    [hasPrevious()] are false, [playIndex(i)] does nothing for every [i]
    and [next()] does nothing. [play()] then selects nothing either: it
    only asks the element (or the suspended context) to resume. *)
Theorem X8_clearQueue_empties (p : AudioPlayer) :
  let p' := clearQueue p in
  getQueue p' = [] /\
  getCurrentTrack p' = None /\
  hasNext p' = false /\
  hasPrevious p' = false /\
  (forall i, playIndex i p' = p') /\
  next p' = p' /\
  selection (play p') = selection p' /\
  log (play p') =
    log p ++ [if context_suspended p then ContextResume else AudioPlay].
Proof.
  assert (Hq : getQueue (clearQueue p) = []).
  { unfold getQueue. simpl. destruct (shuffle p); reflexivity. }
  assert (Hn : hasNext (clearQueue p) = false).
  { unfold hasNext. rewrite Hq. reflexivity. }
  simpl. split; [exact Hq|]. split; [reflexivity|].
  split; [exact Hn|]. split; [reflexivity|]. split; [|split; [|split]].
  - intros i. apply playIndex_out_of_range.
    unfold valid_index. rewrite Hq. simpl. lia.
  - unfold next. now rewrite Hn.
  - unfold play. simpl.
    change (context_suspended (clearQueue p)) with (context_suspended p).
    destruct (context_suspended p); reflexivity.
  - unfold play. simpl.
    change (context_suspended (clearQueue p)) with (context_suspended p).
    destruct (context_suspended p); reflexivity.
Qed.

(** ** Selecting a track *)

(** What [playIndex(i)] does for a valid [i]: it selects the track at
    [i], and when that track has a stream URL it loads the URL and starts
    it, or first resumes a suspended context. *)
Lemma playIndex_loads i p t :
  valid_index i p -> getQueue p !! Z.to_nat i = Some t ->
  currentIndex (playIndex i p) = i /\
  getCurrentTrack (playIndex i p) = Some t /\
  (truthy_url (streamUrl t) = None -> playIndex i p = set_currentIndex i p) /\
  forall url, truthy_url (streamUrl t) = Some url ->
    src (audio (playIndex i p)) = url /\
    currentTime (audio (playIndex i p)) = currentTime (audio p) /\
    log (playIndex i p) =
      log p ++ [AudioSrc url;
                if context_suspended p then ContextResume else AudioPlay] /\
    pending (playIndex i p) =
      pending p ++ [if context_suspended p then PlayIndex_resume t
                    else PlayIndex_play t].
Proof.
  intros Hv Ht. pose proof (playIndex_currentIndex i p Hv) as Hci.
  split; [exact Hci|]. split; [|split].
  - unfold getCurrentTrack. rewrite playIndex_getQueue, Hci.
    unfold valid_index in Hv.
    destruct (0 <=? i) eqn:E1; [|lia].
    destruct (i <? _) eqn:E2; [exact Ht|lia].
  - intros Hurl. unfold playIndex, valid_index in *.
    destruct (i <? 0) eqn:E1; [lia|].
    destruct (_ <=? i) eqn:E2; [lia|]. simpl. now rewrite Ht, Hurl.
  - intros url Hurl. unfold playIndex, valid_index in *.
    destruct (i <? 0) eqn:E1; [lia|].
    destruct (_ <=? i) eqn:E2; [lia|]. simpl. rewrite Ht, Hurl.
    change (context_suspended (audio_set_src url (set_currentIndex i p)))
      with (context_suspended p).
    destruct (context_suspended p); repeat split; simpl;
      now rewrite <- app_assoc.
Qed.

(** X9: putting an album in the queue and double-clicking its row [i]:
    with shuffle off, [playIndex(i)] after [setQueue(T)] selects [T[i]],
    and when that track has a stream URL it is this URL that is loaded
    into the element and started. *)
Theorem X9_setQueue_then_playIndex (rnd : RandomSource) (T : list Track)
  (i : nat) (t : Track) (p : AudioPlayer) :
  shuffle p = false -> T !! i = Some t ->
  let p' := playIndex (Z.of_nat i) (setQueue rnd T p) in
  currentIndex p' = Z.of_nat i /\
  getCurrentTrack p' = Some t /\
  queue p' = T /\
  forall url, truthy_url (streamUrl t) = Some url ->
    src (audio p') = url /\
    log p' = log p ++ [AudioSrc url;
                       if context_suspended p then ContextResume
                       else AudioPlay].
Proof.
  intros Hsh Ht. simpl.
  set (q := setQueue rnd T p).
  assert (Hq : getQueue q = T).
  { unfold getQueue. simpl. now rewrite Hsh. }
  assert (Hv : valid_index (Z.of_nat i) q).
  { unfold valid_index. rewrite Hq. apply lookup_lt_Some in Ht. lia. }
  assert (Hl : getQueue q !! Z.to_nat (Z.of_nat i) = Some t).
  { now rewrite Hq, Nat2Z.id. }
  destruct (playIndex_loads (Z.of_nat i) q t Hv Hl) as (H1 & H2 & _ & H4).
  split; [exact H1|]. split; [exact H2|]. split.
  - pose proof (playIndex_selection _ _ Hv) as Hs.
    change (queue (playIndex (Z.of_nat i) q))
      with (fst (fst (fst (selection (playIndex (Z.of_nat i) q))))).
    rewrite Hs. reflexivity.
  - intros url Hurl. destruct (H4 url Hurl) as (Hsrc & _ & Hlog & _).
    split; [exact Hsrc | exact Hlog].
Qed.

Lemma X9_setQueue_then_playIndex_witness :
  let p' := playIndex 2
              (setQueue rnd_half [trackA; trackB; trackC]
                 (constructor element0)) in
  getCurrentTrack p' = Some trackC /\
  src (audio p') = "http://host/c".
Proof.
  intros p'.
  destruct (X9_setQueue_then_playIndex rnd_half [trackA; trackB; trackC]
              2 trackC (constructor element0) eq_refl eq_refl)
    as (_ & Hcur & _ & Hurl).
  split; [exact Hcur|].
  exact (proj1 (Hurl "http://host/c" eq_refl)).
Defined.

(** ** Moving through the queue *)

Lemma next_getQueue p : getQueue (next p) = getQueue p.
Proof.
  unfold next. destruct (hasNext p); [apply playIndex_getQueue | reflexivity].
Qed.

Lemma Invariant_upper_bound p :
  Invariant p -> currentIndex p <= Z.of_nat (length (getQueue p)) - 1.
Proof.
  intros [_ H]. unfold index_in_range in H.
  destruct (decide (currentIndex p = -1)) as [Hm|Hne]; [lia|].
  specialize (H Hne). lia.
Qed.

(** One call of [next()] on a player that satisfies the invariant. *)
Lemma next_currentIndex p :
  Invariant p ->
  currentIndex (next p) =
  Z.min (currentIndex p + 1) (Z.of_nat (length (getQueue p)) - 1).
Proof.
  intros Hinv.
  pose proof (Invariant_lower_bound p Hinv) as Hlo.
  pose proof (Invariant_upper_bound p Hinv) as Hhi.
  unfold next. destruct (hasNext p) eqn:Hn; unfold hasNext in Hn.
  - apply Z.ltb_lt in Hn. rewrite playIndex_currentIndex; [lia|].
    unfold valid_index. lia.
  - apply Z.ltb_ge in Hn. lia.
Qed.

(** X10: [k] calls of [next()] in a row move the index forward by [k] and
    stop at the last position: from index [c] in an active ordering of
    [n] tracks they end at [min(c + k, n - 1)], where [c] is [-1] when no
    track is selected. In particular [next()] at the last position, and
    in an empty queue, does nothing. The orderings are untouched. *)
Theorem X10_next_repeated (k : nat) (p : AudioPlayer) :
  Invariant p ->
  currentIndex (Nat.iter k next p) =
    Z.min (currentIndex p + Z.of_nat k)
          (Z.of_nat (length (getQueue p)) - 1) /\
  getQueue (Nat.iter k next p) = getQueue p /\
  (currentIndex p = Z.of_nat (length (getQueue p)) - 1 -> next p = p).
Proof.
  intros Hinv.
  pose proof (Invariant_upper_bound p Hinv) as Hhi.
  assert (Hk : Invariant (Nat.iter k next p) /\
               getQueue (Nat.iter k next p) = getQueue p /\
               currentIndex (Nat.iter k next p) =
                 Z.min (currentIndex p + Z.of_nat k)
                       (Z.of_nat (length (getQueue p)) - 1)).
  { induction k as [|k (IHinv & IHq & IHc)].
    - simpl. split; [exact Hinv|]. split; [reflexivity|]. lia.
    - rewrite Nat.iter_succ. split; [now apply next_Invariant|].
      split; [now rewrite next_getQueue|].
      rewrite next_currentIndex, IHq, IHc by exact IHinv. lia. }
  destruct Hk as (_ & Hq & Hc).
  split; [exact Hc|]. split; [exact Hq|].
  intros Hlast. unfold next, hasNext. rewrite Hlast.
  now rewrite Z.ltb_irrefl.
Qed.

Lemma X10_next_repeated_witness :
  let p := playIndex 0
             (setQueue rnd_half [trackA; trackB; trackC]
                (constructor element0)) in
  currentIndex (Nat.iter 5 next p) =
    Z.min (currentIndex p + Z.of_nat 5)
          (Z.of_nat (length (getQueue p)) - 1) /\
  getQueue (Nat.iter 5 next p) = getQueue p.
Proof.
  intros p.
  assert (Hinv : Invariant p)
    by apply playIndex_Invariant, setQueue_Invariant.
  destruct (X10_next_repeated 5 p Hinv) as (Hc & Hq & _).
  split; [exact Hc | exact Hq].
Defined.

Lemma playIndex_audio_time i p :
  currentTime (audio (playIndex i p)) = currentTime (audio p).
Proof.
  unfold playIndex. destruct (_ || _); [reflexivity|]. simpl.
  destruct (getQueue p !! Z.to_nat i) as [track|]; [|reflexivity].
  destruct (truthy_url (streamUrl track)); [|reflexivity].
  destruct (context_suspended _); reflexivity.
Qed.

Lemma getCurrentTrack_selection p q :
  selection p = selection q -> getCurrentTrack p = getCurrentTrack q.
Proof.
  intros Hs. pose proof (selection_getQueue _ _ Hs) as Hq.
  unfold getCurrentTrack. rewrite Hq.
  unfold selection in Hs. injection Hs as _ _ Hc _. now rewrite Hc.
Qed.

(** X11: [previous()] undoes [next()] and [next()] undoes [previous()]:
    within the first 3 seconds of playback, going to the next track and
    back, or to the previous track and forth, ends at the index and the
    track one started from. *)
Theorem X11_previous_next_round_trip (p : AudioPlayer) :
  Invariant p -> (currentTime (audio p) <= 3)%Q ->
  (0 <= currentIndex p -> hasNext p = true ->
     currentIndex (previous (next p)) = currentIndex p /\
     getCurrentTrack (previous (next p)) = getCurrentTrack p) /\
  (hasPrevious p = true ->
     currentIndex (next (previous p)) = currentIndex p /\
     getCurrentTrack (next (previous p)) = getCurrentTrack p).
Proof.
  intros Hinv Ht.
  pose proof (Invariant_upper_bound p Hinv) as Hhi.
  assert (Hsel : forall q, Invariant q -> getQueue q = getQueue p ->
                 queue q = queue p -> shuffledQueue q = shuffledQueue p ->
                 shuffle q = shuffle p ->
                 currentIndex q = currentIndex p ->
                 getCurrentTrack q = getCurrentTrack p).
  { intros q _ _ H1 H2 H3 H4. apply getCurrentTrack_selection.
    unfold selection. now rewrite H1, H2, H3, H4. }
  assert (Hframe : forall i q, valid_index i q ->
                   queue (playIndex i q) = queue q /\
                   shuffledQueue (playIndex i q) = shuffledQueue q /\
                   shuffle (playIndex i q) = shuffle q).
  { intros i q Hv. pose proof (playIndex_selection i q Hv) as Hs.
    unfold selection in Hs. injection Hs as H1 H2 _ H4. auto. }
  split.
  - intros H0 Hn. unfold hasNext in Hn. apply Z.ltb_lt in Hn.
    assert (Hv1 : valid_index (currentIndex p + 1) p)
      by (unfold valid_index; lia).
    assert (Hnext : next p = playIndex (currentIndex p + 1) p).
    { unfold next, hasNext.
      destruct (currentIndex p <? _) eqn:E; [reflexivity|].
      apply Z.ltb_ge in E. lia. }
    pose proof (playIndex_currentIndex _ _ Hv1) as Hc1.
    pose proof (playIndex_getQueue (currentIndex p + 1) p) as Hq1.
    destruct (Hframe _ _ Hv1) as (Fq & Fs & Ff).
    rewrite Hnext. set (p1 := playIndex (currentIndex p + 1) p) in *.
    assert (Hprev : previous p1 = playIndex (currentIndex p) p1).
    { unfold previous. unfold p1 at 1. rewrite playIndex_audio_time.
      apply Qgtb_false in Ht. rewrite Ht.
      unfold hasPrevious. rewrite Hc1.
      destruct (0 <? currentIndex p + 1) eqn:E;
        [f_equal; lia | apply Z.ltb_ge in E; lia]. }
    assert (Hv2 : valid_index (currentIndex p) p1)
      by (unfold valid_index; rewrite Hq1; lia).
    rewrite Hprev.
    pose proof (playIndex_currentIndex _ _ Hv2) as Hc2.
    destruct (Hframe _ _ Hv2) as (Gq & Gs & Gf).
    split; [exact Hc2|].
    apply Hsel; try congruence.
    + apply playIndex_Invariant, playIndex_Invariant, Hinv.
    + now rewrite playIndex_getQueue.
  - intros Hp. unfold hasPrevious in Hp. apply Z.ltb_lt in Hp.
    assert (Hv1 : valid_index (currentIndex p - 1) p)
      by (unfold valid_index; lia).
    assert (Hprev : previous p = playIndex (currentIndex p - 1) p).
    { unfold previous. apply Qgtb_false in Ht. rewrite Ht.
      unfold hasPrevious.
      destruct (0 <? currentIndex p) eqn:E;
        [reflexivity | apply Z.ltb_ge in E; lia]. }
    pose proof (playIndex_currentIndex _ _ Hv1) as Hc1.
    pose proof (playIndex_getQueue (currentIndex p - 1) p) as Hq1.
    destruct (Hframe _ _ Hv1) as (Fq & Fs & Ff).
    rewrite Hprev. set (p1 := playIndex (currentIndex p - 1) p) in *.
    assert (Hnext : next p1 = playIndex (currentIndex p) p1).
    { unfold next, hasNext. rewrite Hc1, Hq1.
      destruct (currentIndex p - 1 <? _) eqn:E;
        [f_equal; lia | apply Z.ltb_ge in E; lia]. }
    assert (Hv2 : valid_index (currentIndex p) p1)
      by (unfold valid_index; rewrite Hq1; lia).
    rewrite Hnext.
    pose proof (playIndex_currentIndex _ _ Hv2) as Hc2.
    destruct (Hframe _ _ Hv2) as (Gq & Gs & Gf).
    split; [exact Hc2|].
    apply Hsel; try congruence.
    + apply playIndex_Invariant, playIndex_Invariant, Hinv.
    + now rewrite playIndex_getQueue.
Qed.

Lemma X11_previous_next_round_trip_witness :
  let p := playIndex 1
             (setQueue rnd_half [trackA; trackB; trackC]
                (constructor element0)) in
  (currentIndex (previous (next p)) = currentIndex p /\
   getCurrentTrack (previous (next p)) = getCurrentTrack p) /\
  (currentIndex (next (previous p)) = currentIndex p /\
   getCurrentTrack (next (previous p)) = getCurrentTrack p).
Proof.
  intros p.
  assert (Hinv : Invariant p)
    by apply playIndex_Invariant, setQueue_Invariant.
  assert (Ht : (currentTime (audio p) <= 3)%Q).
  { vm_compute. discriminate. }
  destruct (X11_previous_next_round_trip p Hinv Ht) as [H1 H2].
  split.
  - apply H1; [vm_compute; discriminate | vm_compute; reflexivity].
  - apply H2. vm_compute. reflexivity.
Defined.

(** ** Starting, stopping and resuming *)

Lemma queue_nonempty_valid_0 p :
  Invariant p -> queue p <> [] -> valid_index 0 p.
Proof.
  intros Hinv Hne. unfold valid_index. rewrite (Invariant_length p Hinv).
  destruct (queue p); [congruence | simpl; lia].
Qed.

(** [play()] when it does not hand over to [playIndex(0)]. *)
Lemma play_resumes p :
  currentIndex p <> -1 \/ queue p = [] -> -1 <= currentIndex p ->
  selection (play p) = selection p /\
  audio (play p) = audio p /\
  log (play p) =
    log p ++ [if context_suspended p then ContextResume else AudioPlay] /\
  pending (play p) =
    pending p ++ [if context_suspended p then Play_resume else Play_play].
Proof.
  intros Hsel Hlo. unfold play.
  assert (Hc : (currentIndex p <? 0) && (0 <? Z.of_nat (length (queue p)))
               = false).
  { destruct Hsel as [Hne | Hnil].
    - apply andb_false_intro1, Z.ltb_ge. lia.
    - rewrite Hnil. apply andb_false_intro2. reflexivity. }
  rewrite Hc. destruct (context_suspended p); repeat split.
Qed.

(** X12: [play()] in a state a session can reach. With no track
    selected and a non-empty queue it is [playIndex(0)]: the track at
    index 0 of the active ordering becomes the selected one (the guard
    looks at the canonical queue and [playIndex] at the active ordering,
    which is never empty when the canonical one is not). With a track
    selected, or an empty queue, it leaves the selection and the element's
    properties alone and only asks the element to play, or the suspended
    context to resume. *)
Theorem X12_play (p : AudioPlayer) :
  Invariant p ->
  (currentIndex p = -1 -> queue p <> [] ->
     play p = playIndex 0 p /\
     currentIndex (play p) = 0 /\
     exists t, getQueue p !! 0%nat = Some t /\
               getCurrentTrack (play p) = Some t) /\
  (currentIndex p <> -1 \/ queue p = [] ->
     selection (play p) = selection p /\
     audio (play p) = audio p /\
     log (play p) =
       log p ++ [if context_suspended p then ContextResume else AudioPlay]).
Proof.
  intros Hinv. split.
  - intros Hnone Hne.
    pose proof (queue_nonempty_valid_0 p Hinv Hne) as Hv.
    assert (Hplay : play p = playIndex 0 p).
    { unfold play. rewrite Hnone.
      destruct (queue p); [congruence | reflexivity]. }
    rewrite Hplay. split; [reflexivity|].
    destruct (lookup_lt_is_Some_2 (getQueue p) 0%nat) as [t Ht].
    { unfold valid_index in Hv. lia. }
    destruct (playIndex_loads 0 p t Hv Ht) as (H1 & H2 & _).
    split; [exact H1|]. exists t. split; [exact Ht | exact H2].
  - intros Hsel.
    destruct (play_resumes p Hsel (Invariant_lower_bound p Hinv))
      as (H1 & H2 & H3 & _).
    auto.
Qed.

Lemma X12_play_witness :
  let q := setQueue rnd_zero [trackA; trackB] (constructor element0) in
  let s := playIndex 1 q in
  (play q = playIndex 0 q /\ currentIndex (play q) = 0) /\
  (selection (play s) = selection s /\ audio (play s) = audio s).
Proof.
  intros q s.
  assert (Hq : Invariant q) by apply setQueue_Invariant.
  destruct (X12_play q Hq) as [Hfirst _].
  destruct (X12_play s (playIndex_Invariant 1 q Hq)) as [_ Hresume].
  split.
  - destruct Hfirst as (H1 & H2 & _);
      [vm_compute; reflexivity | vm_compute; discriminate |].
    split; [exact H1 | exact H2].
  - destruct Hresume as (H1 & H2 & _);
      [left; vm_compute; discriminate |].
    split; [exact H1 | exact H2].
Defined.

(** X13: [stop()] does not forget the selected track: it pauses, sets
    the position to 0 and keeps the selection and the loaded source, and a
    [play()] after it resumes that same track from the start. *)
Theorem X13_stop_then_play (p : AudioPlayer) :
  Invariant p -> currentIndex p <> -1 ->
  selection (stop p) = selection p /\
  getCurrentTrack (play (stop p)) = getCurrentTrack p /\
  src (audio (play (stop p))) = src (audio p) /\
  currentTime (audio (play (stop p))) = 0%Q /\
  log (play (stop p)) =
    log p ++ [AudioPause; AudioCurrentTime 0;
              if context_suspended p then ContextResume else AudioPlay].
Proof.
  intros Hinv Hne.
  pose proof (Invariant_lower_bound p Hinv) as Hlo.
  destruct (play_resumes (stop p)) as (H1 & H2 & H3 & _);
    [left; exact Hne | exact Hlo |].
  split; [reflexivity|]. split; [|split; [|split]].
  - now apply getCurrentTrack_selection.
  - now rewrite H2.
  - now rewrite H2.
  - rewrite H3. simpl. now rewrite <- !app_assoc.
Qed.

Lemma X13_stop_then_play_witness :
  let p := playIndex 1
             (setQueue rnd_zero [trackA; trackB] (constructor element0)) in
  getCurrentTrack (play (stop p)) = getCurrentTrack p /\
  currentTime (audio (play (stop p))) = 0%Q.
Proof.
  intros p.
  destruct (X13_stop_then_play p) as (_ & H1 & _ & H2 & _).
  - apply playIndex_Invariant, setQueue_Invariant.
  - vm_compute. discriminate.
  - split; [exact H1 | exact H2].
Defined.

(** ** How a call of [playIndex] or [play] ends *)

Lemma settle_last k o p :
  settle (length (pending p)) o (suspend k p) = continue k o p.
Proof.
  unfold settle, suspend. simpl.
  rewrite list_lookup_middle by reflexivity.
  rewrite delete_middle, app_nil_r.
  destruct p. reflexivity.
Qed.

(** X14: a call of [playIndex(i)] for a track with a stream URL, audio
    context not suspended. The URL is loaded and [audio.play()] is called
    at once. When that promise is fulfilled, the track-changed slot is
    called with the track that was at [i] when the call was made, and
    nothing else happens; when it is rejected with [e], [e] is logged and
    passed to the error slot, and the track-changed slot is not called. In
    both cases the call is over and [currentIndex] is still [i]. *)
Theorem X14_playIndex_outcome (i : Z) (t : Track) (url : string)
  (p : AudioPlayer) :
  valid_index i p -> getQueue p !! Z.to_nat i = Some t ->
  truthy_url (streamUrl t) = Some url -> context_suspended p = false ->
  let p1 := playIndex i p in
  let n := length (pending p) in
  log p1 = log p ++ [AudioSrc url; AudioPlay] /\
  pending p1 = pending p ++ [PlayIndex_play t] /\
  (log (settle n Fulfilled p1) =
     log p1 ++ match onTrackChange (slots p) with
               | Some h => [Callback h (TrackChange t)]
               | None => []
               end /\
   pending (settle n Fulfilled p1) = pending p /\
   currentIndex (settle n Fulfilled p1) = i) /\
  (forall e,
     log (settle n (Rejected e) p1) =
       log p1 ++ ConsoleError e ::
                 match onError (slots p) with
                 | Some h => [Callback h (Error e)]
                 | None => []
                 end /\
     pending (settle n (Rejected e) p1) = pending p /\
     currentIndex (settle n (Rejected e) p1) = i).
Proof.
  intros Hv Ht Hurl Hctx. simpl.
  assert (Hp1 : playIndex i p =
                suspend (PlayIndex_play t)
                  (emit AudioPlay (audio_set_src url (set_currentIndex i p)))).
  { unfold playIndex, valid_index in *.
    destruct (i <? 0) eqn:E1; [lia|].
    destruct (_ <=? i) eqn:E2; [lia|]. simpl. rewrite Ht, Hurl.
    change (context_suspended (audio_set_src url (set_currentIndex i p)))
      with (context_suspended p). now rewrite Hctx. }
  rewrite Hp1.
  set (q := emit AudioPlay (audio_set_src url (set_currentIndex i p))).
  assert (Hn : length (pending p) = length (pending q)) by reflexivity.
  rewrite Hn, !settle_last.
  split; [simpl; now rewrite <- app_assoc|]. split; [reflexivity|]. split.
  - simpl. unfold fire. simpl.
    destruct (onTrackChange (slots p)); simpl;
      repeat split; now rewrite ?app_nil_r, <- ?app_assoc.
  - intros e. rewrite settle_last. simpl. unfold fire. simpl.
    destruct (onError (slots p)); simpl;
      repeat split; now rewrite <- ?app_assoc.
Qed.

Lemma X14_playIndex_outcome_witness :
  let p := setQueue rnd_half [trackA; trackB]
             (set_slots (mkSlots (Some 1%nat) None None None (Some 2%nat))
                (constructor element0)) in
  log (settle 0 Fulfilled (playIndex 1 p)) =
    log (playIndex 1 p) ++ [Callback 1%nat (TrackChange trackB)] /\
  log (settle 0 (Rejected "AbortError") (playIndex 1 p)) =
    log (playIndex 1 p) ++ [ConsoleError "AbortError";
                            Callback 2%nat (Error "AbortError")].
Proof.
  intros p.
  destruct (X14_playIndex_outcome 1 trackB "http://host/b" p)
    as (_ & _ & (Hok & _) & Hfail).
  - unfold valid_index. vm_compute. split; [discriminate | reflexivity].
  - vm_compute. reflexivity.
  - reflexivity.
  - reflexivity.
  - split; [exact Hok|]. exact (proj1 (Hfail "AbortError")).
Defined.

(** X15: [playIndex(i)] while the audio context is suspended. The URL
    is loaded and the context is asked to resume; [audio.play()] is not
    called yet. When the resume is fulfilled, [audio.play()] is called
    and the call waits for it. When the resume is rejected the call ends
    there: [audio.play()] is never called, nothing is logged and neither
    the error slot nor the track-changed slot is called; [currentIndex]
    is still [i]. *)
Theorem X15_playIndex_suspended_context (i : Z) (t : Track) (url : string)
  (p : AudioPlayer) :
  valid_index i p -> getQueue p !! Z.to_nat i = Some t ->
  truthy_url (streamUrl t) = Some url -> context_suspended p = true ->
  let p1 := playIndex i p in
  let n := length (pending p) in
  log p1 = log p ++ [AudioSrc url; ContextResume] /\
  pending p1 = pending p ++ [PlayIndex_resume t] /\
  (log (settle n Fulfilled p1) = log p1 ++ [AudioPlay] /\
   pending (settle n Fulfilled p1) = pending p ++ [PlayIndex_play t]) /\
  (forall e,
     log (settle n (Rejected e) p1) = log p1 /\
     pending (settle n (Rejected e) p1) = pending p /\
     currentIndex (settle n (Rejected e) p1) = i).
Proof.
  intros Hv Ht Hurl Hctx. simpl.
  assert (Hp1 : playIndex i p =
                suspend (PlayIndex_resume t)
                  (emit ContextResume
                     (audio_set_src url (set_currentIndex i p)))).
  { unfold playIndex, valid_index in *.
    destruct (i <? 0) eqn:E1; [lia|].
    destruct (_ <=? i) eqn:E2; [lia|]. simpl. rewrite Ht, Hurl.
    change (context_suspended (audio_set_src url (set_currentIndex i p)))
      with (context_suspended p). now rewrite Hctx. }
  rewrite Hp1.
  set (q := emit ContextResume (audio_set_src url (set_currentIndex i p))).
  assert (Hn : length (pending p) = length (pending q)) by reflexivity.
  rewrite Hn, !settle_last.
  split; [simpl; now rewrite <- app_assoc|]. split; [reflexivity|].
  split; [split; reflexivity|].
  intros e. rewrite settle_last. repeat split.
Qed.

Lemma X15_playIndex_suspended_context_witness :
  let p := initAudioContext (Connected Suspended)
             (setQueue rnd_half [trackA; trackB] (constructor element0)) in
  log (playIndex 0 p) = [AudioSrc "http://host/a"; ContextResume] /\
  log (settle 0 (Rejected "InvalidStateError") (playIndex 0 p)) =
    log (playIndex 0 p).
Proof.
  intros p.
  destruct (X15_playIndex_suspended_context 0 trackA "http://host/a" p)
    as (Hlog & _ & _ & Hfail).
  - unfold valid_index. vm_compute. split; [discriminate | reflexivity].
  - vm_compute. reflexivity.
  - reflexivity.
  - reflexivity.
  - split; [exact Hlog|]. exact (proj1 (Hfail "InvalidStateError")).
Defined.

(** X16: a failure of [play()] is only logged. When [play()] resumes
    the loaded track and the promise of [audio.play()] is rejected with
    [e], [e] goes to the console and nowhere else: the error slot is not
    called (unlike in [playIndex]), nothing is retried and the selection
    is unchanged. When the promise is fulfilled nothing more happens. *)
Theorem X16_play_failure_is_only_logged (e : ErrorDetail) (p : AudioPlayer) :
  Invariant p -> currentIndex p <> -1 \/ queue p = [] ->
  context_suspended p = false ->
  let n := length (pending p) in
  log (settle n (Rejected e) (play p)) =
    log p ++ [AudioPlay; ConsoleError e] /\
  log (settle n Fulfilled (play p)) = log p ++ [AudioPlay] /\
  pending (settle n (Rejected e) (play p)) = pending p /\
  selection (settle n (Rejected e) (play p)) = selection p.
Proof.
  intros Hinv Hsel Hctx. simpl.
  pose proof (Invariant_lower_bound p Hinv) as Hlo.
  assert (Hplay : play p = suspend Play_play (emit AudioPlay p)).
  { unfold play.
    assert (Hc : (currentIndex p <? 0) && (0 <? Z.of_nat (length (queue p)))
                 = false).
    { destruct Hsel as [Hne | Hnil].
      - apply andb_false_intro1, Z.ltb_ge. lia.
      - rewrite Hnil. apply andb_false_intro2. reflexivity. }
    now rewrite Hc, Hctx. }
  rewrite Hplay.
  change (length (pending p)) with (length (pending (emit AudioPlay p))).
  rewrite !settle_last. simpl.
  repeat split. now rewrite <- app_assoc.
Qed.

Lemma X16_play_failure_is_only_logged_witness :
  let p := playIndex 0
             (setQueue rnd_zero [trackA]
                (set_slots (mkSlots None None None None (Some 2%nat))
                   (constructor element0))) in
  log (settle (length (pending p)) (Rejected "NotAllowedError") (play p)) =
    log p ++ [AudioPlay; ConsoleError "NotAllowedError"].
Proof.
  intros p.
  destruct (X16_play_failure_is_only_logged "NotAllowedError" p)
    as (H & _).
  - apply playIndex_Invariant, setQueue_Invariant.
  - left. vm_compute. discriminate.
  - reflexivity.
  - exact H.
Defined.

(** ** The end of a track, continued *)

Lemma _handleEnded_unfold p :
  let p1 := fire (onEnded (slots p)) Ended p in
  _handleEnded p =
    if String.eqb (repeat p) "one" then play (audio_set_currentTime 0 p1)
    else if hasNext p then next p1
    else if String.eqb (repeat p) "all" && (0 <? Z.of_nat (length (queue p)))
    then playIndex 0 p1 else p1.
Proof.
  simpl. unfold _handleEnded.
  pose proof (fire_onEnded p) as Hp1.
  set (p1 := fire (onEnded (slots p)) Ended p) in *.
  assert (Hsel : selection p1 = selection p) by apply selection_fire.
  assert (Hn : hasNext p1 = hasNext p).
  { unfold hasNext. rewrite (selection_getQueue _ _ Hsel).
    unfold selection in Hsel. injection Hsel as _ _ Hc _. now rewrite Hc. }
  assert (Hr : repeat p1 = repeat p) by now rewrite Hp1.
  assert (Hq : queue p1 = queue p) by now rewrite Hp1.
  now rewrite Hr, Hn, Hq.
Qed.

(** X17: where the end of a track leads when a track is selected. With
    repeat mode [all] the index moves to the next position and wraps:
    from [c] in an active ordering of [n] tracks it becomes
    [(c + 1) mod n]. With a repeat mode that is neither [one] nor [all]
    it becomes [min(c + 1, n - 1)]: the player stays on the last track.
    The orderings are untouched. *)
Theorem X17_ended_moves_on (p : AudioPlayer) :
  Invariant p -> 0 <= currentIndex p ->
  let n := Z.of_nat (length (getQueue p)) in
  (repeat p = "all" ->
     currentIndex (_handleEnded p) = (currentIndex p + 1) mod n) /\
  (repeat p <> "one" -> repeat p <> "all" ->
     currentIndex (_handleEnded p) = Z.min (currentIndex p + 1) (n - 1)) /\
  getQueue (_handleEnded p) = getQueue p.
Proof.
  intros Hinv H0. simpl.
  pose proof (Invariant_upper_bound p Hinv) as Hhi.
  pose proof (Invariant_length p Hinv) as Hlen.
  pose proof (_handleEnded_unfold p) as Hunf. simpl in Hunf.
  set (p1 := fire (onEnded (slots p)) Ended p) in *.
  assert (Hsel : selection p1 = selection p) by apply selection_fire.
  assert (Hq1 : getQueue p1 = getQueue p) by now apply selection_getQueue.
  assert (Hinv1 : Invariant p1).
  { apply (selection_Invariant p); [now symmetry | exact Hinv]. }
  assert (Hc1 : currentIndex p1 = currentIndex p).
  { unfold selection in Hsel. now injection Hsel. }
  split; [|split].
  - intros Hall. rewrite Hunf, Hall. simpl.
    destruct (hasNext p) eqn:Hn; unfold hasNext in Hn.
    + apply Z.ltb_lt in Hn.
      rewrite (next_currentIndex p1 Hinv1), Hq1, Hc1.
      rewrite Z.mod_small by lia. lia.
    + apply Z.ltb_ge in Hn.
      assert (Hpos : (0 <? Z.of_nat (length (queue p))) = true)
        by (apply Z.ltb_lt; lia).
      rewrite Hpos. simpl.
      rewrite playIndex_currentIndex
        by (unfold valid_index; rewrite Hq1; lia).
      replace (currentIndex p + 1) with (Z.of_nat (length (getQueue p)))
        by lia.
      symmetry. apply Z_mod_same_full.
  - intros Hone Hall. apply String.eqb_neq in Hone, Hall.
    rewrite Hunf, Hone, Hall. simpl.
    destruct (hasNext p) eqn:Hn; unfold hasNext in Hn.
    + now rewrite (next_currentIndex p1 Hinv1), Hq1, Hc1.
    + apply Z.ltb_ge in Hn. rewrite Hc1. lia.
  - rewrite Hunf.
    destruct (String.eqb _ "one").
    + unfold play. destruct (_ && _); [now rewrite playIndex_getQueue|].
      destruct (context_suspended _); exact Hq1.
    + destruct (hasNext p); [now rewrite next_getQueue|].
      destruct (_ && _); [now rewrite playIndex_getQueue | exact Hq1].
Qed.

Lemma X17_ended_moves_on_witness :
  let q := setQueue rnd_half [trackA; trackB; trackC] (constructor element0) in
  let p := playIndex 2 (setRepeat "all" q) in
  let r := playIndex 2 q in
  currentIndex (_handleEnded p) =
    (currentIndex p + 1) mod Z.of_nat (length (getQueue p)) /\
  currentIndex (_handleEnded r) =
    Z.min (currentIndex r + 1) (Z.of_nat (length (getQueue r)) - 1).
Proof.
  intros q p r.
  assert (Hq : Invariant q) by apply setQueue_Invariant.
  assert (Hqa : Invariant (setRepeat "all" q))
    by exact (selection_Invariant q _ eq_refl Hq).
  destruct (X17_ended_moves_on p (playIndex_Invariant 2 _ Hqa))
    as (Hall & _); [vm_compute; discriminate|].
  destruct (X17_ended_moves_on r (playIndex_Invariant 2 _ Hq))
    as (_ & Hoff & _); [vm_compute; discriminate|].
  split.
  - apply Hall. reflexivity.
  - apply Hoff; vm_compute; discriminate.
Defined.

(** ** Modes *)

(** X18: [toggleShuffle()] flips the shuffle flag and never changes the
    canonical ordering, so two calls give back the flag and the canonical
    ordering one started with. When no track is selected none is selected
    afterwards; turning shuffle on then leaves a fresh shuffle of the
    canonical ordering, and turning it off leaves the shuffled ordering as
    it was. *)
Theorem X18_toggleShuffle_flag (rnd rnd' : RandomSource) (p : AudioPlayer) :
  shuffle (toggleShuffle rnd p) = negb (shuffle p) /\
  queue (toggleShuffle rnd p) = queue p /\
  shuffle (toggleShuffle rnd' (toggleShuffle rnd p)) = shuffle p /\
  queue (toggleShuffle rnd' (toggleShuffle rnd p)) = queue p /\
  (currentIndex p = -1 ->
     currentIndex (toggleShuffle rnd p) = -1 /\
     getCurrentTrack (toggleShuffle rnd p) = None /\
     shuffledQueue (toggleShuffle rnd p) =
       if shuffle p then shuffledQueue p else _shuffleArray rnd (queue p)).
Proof.
  split; [apply toggleShuffle_shuffle|].
  split; [apply toggleShuffle_queue|].
  split; [now rewrite !toggleShuffle_shuffle, negb_involutive|].
  split; [now rewrite !toggleShuffle_queue|].
  intros Hnone.
  assert (Hcur : forall b, getCurrentTrack (set_shuffle b p) = None).
  { intros b. unfold getCurrentTrack. simpl. now rewrite Hnone. }
  unfold toggleShuffle. rewrite Hcur.
  destruct (shuffle p); simpl; repeat split; try assumption;
    unfold getCurrentTrack; simpl; now rewrite Hnone.
Qed.

Lemma X18_toggleShuffle_flag_witness :
  let p := setQueue rnd_zero [trackA; trackB; trackC] (constructor element0) in
  currentIndex (toggleShuffle rnd_half p) = -1 /\
  shuffledQueue (toggleShuffle rnd_half p) = [trackA; trackC; trackB].
Proof.
  intros p.
  destruct (X18_toggleShuffle_flag rnd_half rnd_half p)
    as (_ & _ & _ & _ & Hnone).
  destruct Hnone as (H1 & _ & H3); [reflexivity|].
  split; [exact H1|]. rewrite H3. reflexivity.
Defined.

(** X19: muting is independent of the volume: [toggleMute()] flips the
    element's [muted] flag and leaves the stored volume, the element's
    volume and the selection alone; two calls give back the flag one
    started with. *)
Theorem X19_toggleMute (p : AudioPlayer) :
  muted (audio (toggleMute p)) = negb (muted (audio p)) /\
  muted (audio (toggleMute (toggleMute p))) = muted (audio p) /\
  volume (toggleMute p) = volume p /\
  audio_volume (audio (toggleMute p)) = audio_volume (audio p) /\
  selection (toggleMute p) = selection p /\
  (forall v, muted (audio (setVolume v p)) = muted (audio p)).
Proof.
  simpl. repeat split. apply negb_involutive.
Qed.

(** ** Seeking *)

(** X20: [seekPercent(percent)] with a known, positive duration [d] and
    a percentage in [[0, 100]] moves the position into [[0, d]]: 0
    percent is the start and 100 percent the end. While the duration is
    unknown or zero it does nothing. The selection is never touched. *)
Theorem X20_seekPercent (percent : Q) (p : AudioPlayer) :
  (forall d, duration (audio p) = Some d -> (0 < d)%Q ->
     (0 <= percent)%Q -> (percent <= 100)%Q ->
     let t := currentTime (audio (seekPercent percent p)) in
     (0 <= t)%Q /\ (t <= d)%Q /\
     ((percent == 0)%Q -> (t == 0)%Q) /\
     ((percent == 100)%Q -> (t == d)%Q)) /\
  (duration (audio p) = None -> seekPercent percent p = p) /\
  (forall d, duration (audio p) = Some d -> (d == 0)%Q ->
     seekPercent percent p = p) /\
  selection (seekPercent percent p) = selection p.
Proof.
  split; [|split; [|split]].
  - intros d Hd Hpos H0 H100. unfold seekPercent. rewrite Hd.
    destruct (Qeq_bool d 0) eqn:E.
    { apply Qeq_bool_iff in E. rewrite E in Hpos.
      now apply Qlt_irrefl in Hpos. }
    simpl.
    assert (Hdiv : (percent / 100 == percent * (1 # 100))%Q) by reflexivity.
    rewrite Hdiv.
    split; [nra|]. split; [nra|]. split; intros Hp; rewrite Hp; nra.
  - intros Hd. unfold seekPercent. now rewrite Hd.
  - intros d Hd H0. unfold seekPercent. rewrite Hd.
    apply Qeq_bool_iff in H0. now rewrite H0.
  - unfold seekPercent. destruct (duration _); [|reflexivity].
    destruct (Qeq_bool _ _); reflexivity.
Qed.

Lemma X20_seekPercent_witness :
  let p := step (OpElement 10 (Some 200%Q))
             (playIndex 0
                (setQueue rnd_zero [trackA] (constructor element0))) in
  (currentTime (audio (seekPercent 100 p)) == 200)%Q /\
  seekPercent 25 (constructor element0) = constructor element0.
Proof.
  intros p.
  destruct (X20_seekPercent 100 p) as (Hknown & _).
  destruct (X20_seekPercent 25 (constructor element0)) as (_ & Hnone & _).
  split.
  - destruct (Hknown 200%Q eq_refl) as (_ & _ & _ & Hend);
      try (unfold Qlt, Qle; simpl; lia).
    apply Hend. reflexivity.
  - apply Hnone. reflexivity.
Defined.

(** * Further properties of the shuffle *)

Section ShuffleFacts.
Context {A : Type}.
Implicit Types (a l : list A).

Lemma swap_lookup_other a i j m :
  m <> i -> m <> j -> swap a i j !! m = a !! m.
Proof.
  intros Hi Hj. unfold swap.
  destruct (a !! j); [|reflexivity]. destruct (a !! i); [|reflexivity].
  rewrite !list_lookup_insert_ne by congruence. reflexivity.
Qed.

Lemma swap_app_l a suf i j :
  (i < length a)%nat -> (j < length a)%nat ->
  swap (a ++ suf) i j = swap a i j ++ suf.
Proof.
  intros Hi Hj. unfold swap.
  rewrite !lookup_app_l by assumption.
  destruct (a !! j); [|reflexivity]. destruct (a !! i); [|reflexivity].
  rewrite insert_app_l by assumption.
  rewrite insert_app_l by (rewrite length_insert; assumption).
  reflexivity.
Qed.

(** The loop counts its draws from [k]; starting one later is the same
    as dropping the first draw of the source. *)
Lemma shuffle_loop_shift rnd k i a :
  shuffle_loop rnd (S k) i a = shuffle_loop (fun m => rnd (S m)) k i a.
Proof.
  revert k a. induction i as [|i IH]; intros k a; [reflexivity|].
  simpl. apply IH.
Qed.

(** The loop run from [i] only touches the positions [0..i]. *)
Lemma shuffle_loop_app rnd k i a suf :
  (i < length a)%nat ->
  shuffle_loop rnd k i (a ++ suf) = shuffle_loop rnd k i a ++ suf.
Proof.
  revert k a. induction i as [|i IH]; intros k a Hi; [reflexivity|].
  simpl. pose proof (random_index_le (rnd k) (S i)) as Hj.
  rewrite swap_app_l by lia.
  apply IH. rewrite swap_length. lia.
Qed.

Lemma shuffle_loop_lookup_above rnd k i a m :
  (i < m)%nat -> shuffle_loop rnd k i a !! m = a !! m.
Proof.
  revert k a. induction i as [|i IH]; intros k a Hm; [reflexivity|].
  simpl. pose proof (random_index_le (rnd k) (S i)) as Hj.
  rewrite IH by lia. apply swap_lookup_other; lia.
Qed.

(** X21: the shuffle can produce every ordering: for every array of a
    length an array can have (below [2^32]) and every permutation of it
    there are doubles of [[0, 1)] which, returned by [Math.random()], make
    [_shuffleArray] return that permutation. *)
Theorem X21_shuffle_reaches_every_ordering (l l' : list A) :
  Z.of_nat (length l) < 2 ^ 32 -> l ≡ₚ l' ->
  exists rnd : RandomSource, _shuffleArray rnd l = l'.
Proof.
  revert l. induction l' as [|x l' IH] using rev_ind; intros l Hbound Hperm.
  - apply Permutation_nil_r in Hperm. subst l. exists rnd_zero. reflexivity.
  - assert (Hx : x ∈ l).
    { rewrite Hperm. apply elem_of_app. right. now left. }
    apply list_elem_of_lookup_1 in Hx as [j Hj].
    pose proof (lookup_lt_Some _ _ _ Hj) as Hjlt.
    pose proof (Permutation_length Hperm) as Hlen.
    rewrite length_app in Hlen. simpl in Hlen.
    set (i := (length l - 1)%nat).
    destruct (random_index_onto i j) as [d Hd]; [lia | lia |].
    set (l1 := swap l i j).
    assert (Hl1 : l1 !! i = Some x).
    { apply swap_lookup_l; [lia | exact Hj]. }
    assert (Hlen1 : length l1 = length l) by apply swap_length.
    destruct (list_elem_of_split_length _ _ _ Hl1) as (pre & suf & Heq & Hi).
    assert (Hsuf : suf = []).
    { apply (f_equal length) in Heq. rewrite length_app in Heq.
      simpl in Heq. destruct suf; [reflexivity | simpl in Heq; lia]. }
    subst suf.
    assert (Hpre : pre ≡ₚ l').
    { apply (Permutation_app_inv_r [x]).
      rewrite <- Heq. unfold l1. rewrite swap_Permutation. exact Hperm. }
    assert (Hprelen : Z.of_nat (length pre) < 2 ^ 32).
    { apply Permutation_length in Hpre. lia. }
    destruct (IH pre Hprelen Hpre) as [rnd' Hrnd'].
    exists (fun m => match m with O => d | S m' => rnd' m' end).
    unfold _shuffleArray. fold i.
    destruct i as [|i'] eqn:Ei.
    + (* a single element *)
      simpl. destruct pre; [|simpl in Hi; lia].
      apply Permutation_nil_l in Hpre. subst l'.
      assert (Hj0 : j = 0%nat) by lia. subst j.
      destruct l as [|y [|z l]]; simpl in *; try lia.
      apply Permutation_singleton_r in Hperm. exact Hperm.
    + simpl. rewrite Hd. fold l1. rewrite Heq.
      rewrite shuffle_loop_shift.
      rewrite shuffle_loop_app by lia.
      f_equal. unfold _shuffleArray in Hrnd'.
      replace (length pre - 1)%nat with i' in Hrnd' by lia.
      exact Hrnd'.
Qed.

(** X22: for an array without duplicates the shuffle's result determines
    the indices that were drawn: two runs that return the same ordering
    swapped with the same index at every step, whatever the doubles
    [Math.random()] returned. *)
Theorem X22_shuffle_result_determines_indices (rnd1 rnd2 : RandomSource)
  (l : list A) :
  NoDup l -> _shuffleArray rnd1 l = _shuffleArray rnd2 l ->
  forall i, (1 <= i < length l)%nat ->
            drawn rnd1 (length l) i = drawn rnd2 (length l) i.
Proof.
  intros Hnd Heq.
  assert (Hgen : forall i k1 k2 a,
            NoDup a -> (i < length a)%nat ->
            shuffle_loop rnd1 k1 i a = shuffle_loop rnd2 k2 i a ->
            forall m, (1 <= m <= i)%nat ->
              random_index (rnd1 (k1 + (i - m))%nat) m =
              random_index (rnd2 (k2 + (i - m))%nat) m).
  { induction i as [|i IH]; intros k1 k2 a Ha Hi Hres m Hm; [lia|].
    simpl in Hres.
    pose proof (random_index_le (rnd1 k1) (S i)) as Hj1.
    pose proof (random_index_le (rnd2 k2) (S i)) as Hj2.
    set (j1 := random_index (rnd1 k1) (S i)) in *.
    set (j2 := random_index (rnd2 k2) (S i)) in *.
    assert (Hlast : swap a (S i) j1 !! S i = swap a (S i) j2 !! S i).
    { rewrite <- (shuffle_loop_lookup_above rnd1 (S k1) i _ (S i)) by lia.
      rewrite <- (shuffle_loop_lookup_above rnd2 (S k2) i (swap a (S i) j2)
                    (S i)) by lia.
      now rewrite Hres. }
    destruct (lookup_lt_is_Some_2 a j1) as [x1 Hx1]; [lia|].
    destruct (lookup_lt_is_Some_2 a j2) as [x2 Hx2]; [lia|].
    rewrite (swap_lookup_l a (S i) j1 x1) in Hlast by assumption.
    rewrite (swap_lookup_l a (S i) j2 x2) in Hlast by assumption.
    injection Hlast as <-.
    assert (Hj : j1 = j2) by exact (NoDup_lookup a j1 j2 x1 Ha Hx1 Hx2).
    destruct (decide (m = S i)) as [->|Hne].
    - replace (S i - S i)%nat with 0%nat by lia. rewrite !Nat.add_0_r.
      exact Hj.
    - rewrite Hj in Hres.
      replace (k1 + (S i - m))%nat with (S k1 + (i - m))%nat by lia.
      replace (k2 + (S i - m))%nat with (S k2 + (i - m))%nat by lia.
      apply (IH (S k1) (S k2) (swap a (S i) j2)).
      + now rewrite swap_Permutation.
      + rewrite swap_length. lia.
      + exact Hres.
      + lia. }
  intros i Hi. unfold drawn.
  specialize (Hgen (length l - 1)%nat 0%nat 0%nat l Hnd ltac:(lia) Heq i
                ltac:(lia)).
  exact Hgen.
Qed.
End ShuffleFacts.

(** * Properties of the formatters *)

Lemma string_length_append (s t : string) :
  String.length (String.append s t) = (String.length s + String.length t)%nat.
Proof. induction s as [|c s IH]; simpl; [reflexivity | now rewrite IH]. Qed.

(** Two concatenations whose right parts have the same length agree part
    by part. *)
Lemma string_append_inj (s1 s2 t1 t2 : string) :
  String.length t1 = String.length t2 ->
  String.append s1 t1 = String.append s2 t2 -> s1 = s2 /\ t1 = t2.
Proof.
  intros Hlen. revert s2.
  induction s1 as [|c s1 IH]; intros [|c2 s2] Heq; simpl in Heq.
  - auto.
  - apply (f_equal String.length) in Heq. simpl in Heq.
    rewrite !string_length_append in Heq. simpl in Heq. lia.
  - apply (f_equal String.length) in Heq. simpl in Heq.
    rewrite !string_length_append in Heq. simpl in Heq. lia.
  - injection Heq as -> Heq. destruct (IH s2 Heq) as [-> ->]. auto.
Qed.

Lemma Z_to_string_inj (n m : Z) : Z_to_string n = Z_to_string m -> n = m.
Proof.
  unfold Z_to_string. intros H.
  assert (Hnn : forall z, Z.to_int z <> Pos Nil /\ Z.to_int z <> Neg Nil).
  { intros [|q|q]; simpl; split; try discriminate;
      intros [= Hq]; now apply Unsigned.to_uint_nonnil in Hq. }
  apply to_int_inj.
  destruct (Hnn n) as [Hn1 Hn2]. destruct (Hnn m) as [Hm1 Hm2].
  pose proof (NilZero.isi _ Hn1 Hn2) as En.
  pose proof (NilZero.isi _ Hm1 Hm2) as Em.
  rewrite H in En. congruence.
Qed.

(** The seconds field: a number of [0..59] padded to two characters is
    its two decimal digits. *)
Lemma padStart_two_digits (s : Z) :
  0 <= s < 60 ->
  padStart 2 (Z_to_string s) =
  String (digit (s / 10)) (String (digit (s mod 10)) EmptyString).
Proof.
  intros Hs.
  assert (Hk : exists k, (k < 60)%nat /\ s = Z.of_nat k).
  { exists (Z.to_nat s). lia. }
  destruct Hk as (k & Hk & ->).
  do 60 (destruct k as [|k]; [vm_compute; reflexivity|]).
  lia.
Qed.

Lemma digit_inj (a b : Z) :
  0 <= a < 10 -> 0 <= b < 10 -> digit a = digit b -> a = b.
Proof.
  intros Ha Hb H. unfold digit in H.
  apply (f_equal nat_of_ascii) in H.
  rewrite !nat_ascii_embedding in H by lia. lia.
Qed.

Lemma formatTime_shape (n : Z) :
  0 <= n ->
  formatTime (Whole n) =
  String.append (Z_to_string (n / 60))
    (String ":" (String (digit (n mod 60 / 10))
                   (String (digit (n mod 60 mod 10)) EmptyString))).
Proof.
  intros Hn. unfold formatTime.
  destruct (n <? 0) eqn:E; [apply Z.ltb_lt in E; lia|].
  unfold minutes_seconds. simpl.
  rewrite Z.rem_mod_nonneg by lia.
  rewrite padStart_two_digits by (apply Z.mod_pos_bound; lia).
  reflexivity.
Qed.

(** X23: [formatTime] always gives minutes, a colon and exactly two
    digits of seconds: for a whole number [n] of seconds from 0 up it is
    the decimal digits of [n / 60], then [":"], then the two decimal
    digits of [n mod 60]; for a negative number, [NaN] and the infinities
    it is ["0:00"]. *)
Theorem X23_formatTime_shape (n : Z) :
  (0 <= n <= MAX_SAFE_INTEGER ->
     formatTime (Whole n) =
     String.append (Z_to_string (n / 60))
       (String ":" (String (digit (n mod 60 / 10))
                      (String (digit (n mod 60 mod 10)) EmptyString))) /\
     String.length (formatTime (Whole n)) =
       (String.length (Z_to_string (n / 60)) + 3)%nat) /\
  (n < 0 -> formatTime (Whole n) = "0:00") /\
  formatTime NotANumber = "0:00" /\
  (forall negative, formatTime (Infinite negative) = "0:00").
Proof.
  split; [|split; [|split]].
  - intros [Hn _]. rewrite formatTime_shape by exact Hn.
    split; [reflexivity|]. now rewrite string_length_append.
  - intros Hneg. unfold formatTime.
    destruct (n <? 0) eqn:E; [reflexivity | apply Z.ltb_ge in E; lia].
  - reflexivity.
  - reflexivity.
Qed.

Lemma X23_formatTime_shape_witness :
  formatTime (Whole 3725) = "62:05" /\
  formatTime (Whole (-5)) = "0:00".
Proof.
  destruct (X23_formatTime_shape 3725) as [Hpos _].
  destruct (X23_formatTime_shape (-5)) as (_ & Hneg & _).
  split.
  - destruct Hpos as [H _]; [vm_compute; split; discriminate|].
    rewrite H. reflexivity.
  - apply Hneg. lia.
Defined.

(** X24: different times are displayed differently: on whole numbers of
    seconds from 0 up, [formatTime] is injective. *)
Theorem X24_formatTime_injective (n m : Z) :
  0 <= n <= MAX_SAFE_INTEGER -> 0 <= m <= MAX_SAFE_INTEGER ->
  formatTime (Whole n) = formatTime (Whole m) -> n = m.
Proof.
  intros [Hn _] [Hm _] H.
  rewrite !formatTime_shape in H by assumption.
  apply string_append_inj in H as [Hq Hr]; [|reflexivity].
  apply Z_to_string_inj in Hq.
  injection Hr as H1 H0.
  assert (Bn : 0 <= n mod 60 < 60) by (apply Z.mod_pos_bound; lia).
  assert (Bm : 0 <= m mod 60 < 60) by (apply Z.mod_pos_bound; lia).
  apply digit_inj in H1;
    [| split; [apply Z.div_pos; lia | apply Z.div_lt_upper_bound; lia]
     | split; [apply Z.div_pos; lia | apply Z.div_lt_upper_bound; lia]].
  apply digit_inj in H0; [| apply Z.mod_pos_bound; lia
                          | apply Z.mod_pos_bound; lia].
  assert (Hrem : n mod 60 = m mod 60).
  { rewrite (Z.div_mod (n mod 60) 10), (Z.div_mod (m mod 60) 10) by lia.
    now rewrite H1, H0. }
  rewrite (Z.div_mod n 60), (Z.div_mod m 60) by lia.
  now rewrite Hq, Hrem.
Qed.

Lemma X24_formatTime_injective_witness :
  formatTime (Whole 125) = formatTime (Whole (60 * 2 + 5)) /\
  125 = 60 * 2 + 5.
Proof.
  assert (H : formatTime (Whole 125) = formatTime (Whole (60 * 2 + 5)))
    by (vm_compute; reflexivity).
  split; [exact H|].
  apply X24_formatTime_injective;
    [vm_compute; split; discriminate | vm_compute; split; discriminate
    | exact H].
Defined.

(** X25: the playlist's [formatDuration] and the player's [formatTime]
    agree on every whole number of seconds from 0 up and on [NaN]; they
    differ on every negative number, where [formatTime] gives ["0:00"]
    and [formatDuration] prints a minus sign. *)
Theorem X25_formatDuration_agrees (n : Z) :
  (0 <= n <= MAX_SAFE_INTEGER ->
     formatDuration (Whole n) = formatTime (Whole n)) /\
  formatDuration NotANumber = formatTime NotANumber /\
  (- MAX_SAFE_INTEGER <= n < 0 ->
     formatTime (Whole n) = "0:00" /\
     exists rest, formatDuration (Whole n) = String "-" rest).
Proof.
  split; [|split].
  - intros [Hn _]. destruct n as [|q|q]; [reflexivity | reflexivity | lia].
  - reflexivity.
  - intros [_ Hn]. destruct n as [|q|q]; try lia.
    split; [reflexivity|].
    unfold formatDuration, minutes_seconds. simpl floor_div_60.
    assert (Hq : Z.neg q / 60 < 0)
      by (apply Z.div_lt_upper_bound; lia).
    destruct (Z.neg q / 60) as [|r|r] eqn:E; try lia.
    simpl. eexists. reflexivity.
Qed.

Lemma X25_formatDuration_agrees_witness :
  formatDuration (Whole 125) = formatTime (Whole 125) /\
  formatTime (Whole (-65)) = "0:00" /\
  formatDuration (Whole (-65)) = "-2:-5".
Proof.
  destruct (X25_formatDuration_agrees 125) as [Hpos _].
  destruct (X25_formatDuration_agrees (-65)) as (_ & _ & Hneg).
  split; [apply Hpos; vm_compute; split; discriminate|].
  destruct Hneg as [H0 _]; [vm_compute; split; [discriminate | reflexivity]|].
  split; [exact H0 | reflexivity].
Defined.

(** * The snapshot *)

(** X26: the snapshot [getState()] returns is consistent in every state a
    session reaches: the reported index is [-1] or below the reported
    queue length, the reported track is [null] exactly when the index is
    [-1] and is otherwise a track of the queue, the volume lies in
    [[0, 1]], and the reported duration is 0 while the element has
    none. *)
Theorem X26_getState_consistent (a : Audio) (ops : list Op) :
  let s := getState (run ops (constructor a)) in
  (st_currentIndex s = -1 \/
   0 <= st_currentIndex s < Z.of_nat (st_queueLength s)) /\
  (st_currentTrack s = None <-> st_currentIndex s = -1) /\
  (forall t, st_currentTrack s = Some t ->
             t ∈ queue (run ops (constructor a))) /\
  (0 <= st_volume s)%Q /\ (st_volume s <= 1)%Q /\
  (duration (audio (run ops (constructor a))) = None ->
   st_duration s = 0%Q).
Proof.
  set (p := run ops (constructor a)). simpl.
  assert (Hinv : Invariant p)
    by apply run_Invariant, Invariant_constructor.
  pose proof (Invariant_length p Hinv) as Hlen.
  destruct (Invariant_current_track p Hinv) as [Hnone Hmem].
  pose proof (run_volume ops _ (constructor_volume a)) as Hvol.
  fold p in Hvol.
  split; [|split; [exact Hnone|split; [exact Hmem|]]].
  - destruct Hinv as [_ Hidx]. unfold index_in_range in Hidx.
    destruct (decide (currentIndex p = -1)) as [|Hne]; [now left|].
    right. rewrite <- Hlen. now apply Hidx.
  - split; [apply Hvol|]. split; [apply Hvol|].
    intros Hd. unfold duration_or_0. now rewrite Hd.
Qed.

(** * Instances *)

Lemma X21_shuffle_reaches_every_ordering_witness :
  exists rnd : RandomSource,
    _shuffleArray rnd [trackA; trackB; trackC] = [trackC; trackA; trackB].
Proof.
  apply X21_shuffle_reaches_every_ordering.
  - vm_compute. reflexivity.
  - symmetry. apply (Permutation_cons_append [trackA; trackB] trackC).
Defined.

Lemma X22_shuffle_result_determines_indices_witness :
  _shuffleArray rnd_zero [1; 2; 3]%nat = _shuffleArray rnd_quarter [1; 2; 3]%nat /\
  drawn rnd_zero (length [1; 2; 3]%nat) 2 =
  drawn rnd_quarter (length [1; 2; 3]%nat) 2.
Proof.
  assert (H : _shuffleArray rnd_zero [1; 2; 3]%nat =
              _shuffleArray rnd_quarter [1; 2; 3]%nat)
    by (vm_compute; reflexivity).
  split; [exact H|].
  apply (X22_shuffle_result_determines_indices rnd_zero rnd_quarter
           [1; 2; 3]%nat).
  - repeat (constructor;
            [rewrite ?elem_of_cons, elem_of_nil; lia|]).
    constructor.
  - exact H.
  - simpl. lia.
Defined.

Lemma X2_reachable_current_track_witness :
  let p := run [OpSetQueue rnd_half [trackA; trackB]; OpPlayIndex 1]
             (constructor element0) in
  trackB ∈ queue p.
Proof.
  intros p.
  destruct (X2_reachable_current_track element0
              [OpSetQueue rnd_half [trackA; trackB]; OpPlayIndex 1])
    as [_ Hmem].
  apply Hmem. vm_compute. reflexivity.
Defined.

Lemma X26_getState_consistent_witness :
  let p := run [OpSetQueue rnd_half [trackA; trackB]; OpPlayIndex 1]
             (constructor element0) in
  trackB ∈ queue p /\ st_duration (getState p) = 0%Q.
Proof.
  intros p.
  destruct (X26_getState_consistent element0
              [OpSetQueue rnd_half [trackA; trackB]; OpPlayIndex 1])
    as (_ & _ & Hmem & _ & _ & Hdur).
  split.
  - apply Hmem. vm_compute. reflexivity.
  - apply Hdur. vm_compute. reflexivity.
Defined.

(** X27: [togglePlay()] pauses while the player is playing and is
    [play()] otherwise; either way, when a track is selected it stays
    the selected one. *)
Theorem X27_togglePlay (p : AudioPlayer) :
  Invariant p ->
  (isPlaying p = true ->
     selection (togglePlay p) = selection p /\
     log (togglePlay p) = log p ++ [AudioPause] /\
     pending (togglePlay p) = pending p) /\
  (isPlaying p = false -> togglePlay p = play p) /\
  (currentIndex p <> -1 ->
     getCurrentTrack (togglePlay p) = getCurrentTrack p).
Proof.
  intros Hinv. unfold togglePlay. split; [|split].
  - intros ->. repeat split.
  - intros ->. reflexivity.
  - intros Hne. destruct (isPlaying p); [reflexivity|].
    apply getCurrentTrack_selection.
    destruct (play_resumes p) as (H & _);
      [left; exact Hne | now apply Invariant_lower_bound | exact H].
Qed.

Lemma X27_togglePlay_witness :
  let p := playIndex 1
             (setQueue rnd_zero [trackA; trackB] (constructor element0)) in
  let playing := dispatch EvPlay p in
  log (togglePlay playing) = log playing ++ [AudioPause] /\
  getCurrentTrack (togglePlay p) = getCurrentTrack p.
Proof.
  intros p playing.
  assert (Hp : Invariant p) by apply playIndex_Invariant, setQueue_Invariant.
  destruct (X27_togglePlay playing (dispatch_Invariant EvPlay p Hp))
    as [Hpause _].
  destruct (X27_togglePlay p Hp) as (_ & _ & Hsel).
  split.
  - destruct Hpause as (_ & H & _); [reflexivity | exact H].
  - apply Hsel. vm_compute. discriminate.
Defined.
